(** * pyatv facade: a shallow embedding of [pyatv/support/facade.py]

    The facade relays calls of the public pyatv interface to protocol
    implementations.  This development embeds the parts of the module that
    carry state or make decisions: the feature map of [FacadeFeatures], the
    protocol table of [FacadeAppleTV] with [connect], [close] and [service],
    the listener forwarding of [FacadePower] and the keyword arguments of
    [FacadeMetadata.artwork].

    Python exceptions are explicit: a call returns the state it leaves behind
    together with an [outcome]. *)

From stdpp Require Import gmap strings list.

(** ** Exceptions and the state/exception monad *)

(** The exceptions that occur: [ValueError] is what [list.index] raises for a
    missing element, [RuntimeError] is raised by [FacadeAppleTV.service], and
    [BackendError] stands for whatever a protocol implementation raises. *)
Inductive exn : Type :=
| ValueError
| RuntimeError (msg : string)
| BackendError (code : N).

Inductive outcome (A : Type) : Type :=
| Ok (a : A)
| Raise (e : exn).
Arguments Ok {A} a.
Arguments Raise {A} e.

#[global] Instance exn_eq_dec : EqDecision exn.
Proof. solve_decision. Defined.

#[global] Instance outcome_eq_dec {A} `{EqDecision A} : EqDecision (outcome A).
Proof. solve_decision. Defined.

(** A statement of the source runs on a state [St]; when it raises, the state
    reached so far is kept (Python does not roll back mutations). *)
Definition M (St A : Type) : Type := St -> St * outcome A.

Definition ret {St A} (a : A) : M St A := fun s => (s, Ok a).

Definition raise {St A} (e : exn) : M St A := fun s => (s, Raise e).

Definition bind {St A B} (c : M St A) (k : A -> M St B) : M St B :=
  fun s =>
    match c s with
    | (s', Ok a) => k a s'
    | (s', Raise e) => (s', Raise e)
    end.

Notation "x <~ c ;; k" := (bind c (fun x => k))
  (at level 100, c at next level, right associativity).
Notation "c ;;; k" := (bind c (fun _ => k))
  (at level 100, right associativity).

(** [for x in l: body x] *)
Fixpoint for_each {St A} (body : A -> M St unit) (l : list A) : M St unit :=
  match l with
  | [] => ret tt
  | x :: rest => body x ;;; for_each body rest
  end.

(** ** Protocols and priorities *)

(** [pyatv.const.Protocol] is not part of the embedded sources; its members
    are the ones the sources name: the four of [DEFAULT_PRIORITIES] and
    [Protocol.RAOP], used by [scripts/atvremote.py]. *)
Inductive Protocol : Type := MRP | DMAP | Companion | AirPlay | RAOP.

#[global] Instance Protocol_eq_dec : EqDecision Protocol.
Proof. solve_decision. Defined.

Definition Protocol_to_nat (p : Protocol) : nat :=
  match p with MRP => 0 | DMAP => 1 | Companion => 2 | AirPlay => 3 | RAOP => 4 end.

Definition Protocol_of_nat (n : nat) : option Protocol :=
  match n with
  | 0 => Some MRP | 1 => Some DMAP | 2 => Some Companion
  | 3 => Some AirPlay | 4 => Some RAOP | _ => None
  end.

#[global] Program Instance Protocol_countable : Countable Protocol :=
  inj_countable Protocol_to_nat Protocol_of_nat _.
Next Obligation. by intros []. Qed.

Definition DEFAULT_PRIORITIES : list Protocol := [MRP; DMAP; Companion; AirPlay].

(** [l.index(x)]: position of the first occurrence, [ValueError] if absent. *)
Fixpoint index (x : Protocol) (l : list Protocol) : outcome nat :=
  match l with
  | [] => Raise ValueError
  | y :: rest =>
      if decide (x = y) then Ok 0
      else match index x rest with
           | Ok n => Ok (S n)
           | Raise e => Raise e
           end
  end.

(** [FacadeFeatures._has_higher_priority] *)
Definition _has_higher_priority (first second : Protocol) : outcome bool :=
  match index first DEFAULT_PRIORITIES with
  | Ok i =>
      match index second DEFAULT_PRIORITIES with
      | Ok j => Ok (bool_decide (i < j))
      | Raise e => Raise e
      end
  | Raise e => Raise e
  end.

(** ** Features *)

(** [pyatv.const.FeatureName] is an integer enumeration; a feature name is
    its value. *)
Definition FeatureName : Type := N.

Inductive FeatureState : Type := Unknown | Unsupported | Unavailable | Available.

#[global] Instance FeatureState_eq_dec : EqDecision FeatureState.
Proof. solve_decision. Defined.

(** Modelled from the spec: [interface.FeatureInfo] is not part of the
    embedded sources.  A feature info is a state with a mapping of options,
    and the constructor called with a state alone gives empty options. *)
Record FeatureInfo : Type := mkFeatureInfo {
  state : FeatureState;
  options : gmap string string;
}.

Definition FeatureInfo_of_state (s : FeatureState) : FeatureInfo :=
  {| state := s; options := ∅ |}.

(** An [interface.Features] object of a protocol, by object identity. *)
Definition Instance : Type := nat.

(** The state of a [FacadeFeatures] object.  [_interfaces] is the table of
    the [Relayer] base class (instances by protocol), [_feature_map] the
    dictionary declared in [FacadeFeatures.__init__]. *)
Record FacadeFeatures : Type := mkFacadeFeatures {
  _interfaces : gmap Protocol Instance;
  _feature_map : gmap FeatureName (Protocol * Instance);
}.

(** Modelled from the spec: [Relayer.get] ([pyatv/support/relayer.py]) is not
    part of the embedded sources.  A registry binds at most one instance to a
    protocol; [get] answers that instance, or [None] when there is none,
    which is what [add_mapping] tests with [if instance:]. *)
Definition get (self : FacadeFeatures) (protocol : Protocol) : option Instance :=
  _interfaces self !! protocol.

(** The body of the loop of [add_mapping], on the feature map. *)
Definition add_feature (protocol : Protocol) (instance : Instance)
    (feature : FeatureName) : M (gmap FeatureName (Protocol * Instance)) unit :=
  fun fm =>
    match fm !! feature with
    | None => (<[feature := (protocol, instance)]> fm, Ok tt)
    | Some holder =>
        match _has_higher_priority protocol holder.1 with
        | Ok true => (<[feature := (protocol, instance)]> fm, Ok tt)
        | Ok false => (fm, Ok tt)
        | Raise e => (fm, Raise e)
        end
    end.

(** [FacadeFeatures.add_mapping]; [features] is the set in the order the
    loop visits it. *)
Definition add_mapping (protocol : Protocol) (features : list FeatureName)
    : M FacadeFeatures unit :=
  fun self =>
    match get self protocol with
    | Some instance =>
        let '(fm, r) :=
          for_each (add_feature protocol instance) features (_feature_map self) in
        ({| _interfaces := _interfaces self; _feature_map := fm |}, r)
    | None => (self, Ok tt)
    end.

(** [FacadeFeatures.get_feature]; [instance_get_feature] is the live answer
    of a protocol's own [get_feature]. *)
Definition get_feature
    (instance_get_feature : Instance -> FeatureName -> outcome FeatureInfo)
    (feature_name : FeatureName) (self : FacadeFeatures) : outcome FeatureInfo :=
  match _feature_map self !! feature_name with
  | Some holder => instance_get_feature holder.2 feature_name
  | None => Ok (FeatureInfo_of_state Unsupported)
  end.

(** A feature map is well formed when every holder is on the priority list;
    the comparison of priorities is then defined. *)
Definition holders_prioritised (fm : gmap FeatureName (Protocol * Instance)) : Prop :=
  forall f q j, fm !! f = Some (q, j) -> q ∈ DEFAULT_PRIORITIES.

(** What a protocol that declares a feature makes of the feature's entry,
    when the comparison of priorities is defined. *)
Definition claim (p : Protocol) (i : Instance) (entry : option (Protocol * Instance))
    : option (Protocol * Instance) :=
  match entry with
  | None => Some (p, i)
  | Some (q, j) =>
      if decide (_has_higher_priority p q = Ok true) then Some (p, i)
      else Some (q, j)
  end.

(** ** The aggregate facade *)

(** What running protocol routines leaves behind: the state of everything
    outside the facade (connections, devices), and the log of the routines
    the facade invoked. *)
Inductive event : Type :=
| EvSessionClose
| EvConnect (p : Protocol)
| EvClose (p : Protocol).

#[global] Instance event_eq_dec : EqDecision event.
Proof. solve_decision. Defined.

Definition is_close (ev : event) : bool :=
  match ev with EvClose _ => true | _ => false end.

Definition is_connect (ev : event) : bool :=
  match ev with EvConnect _ => true | _ => false end.

(** A Python dictionary keyed by protocol keeps its keys in insertion order;
    assigning to a key that is present replaces the value in place. *)
Fixpoint dict_set {V} (k : Protocol) (v : V) (d : list (Protocol * V))
    : list (Protocol * V) :=
  match d with
  | [] => [(k, v)]
  | (k', v') :: rest =>
      if decide (k = k') then (k, v) :: rest else (k', v') :: dict_set k v rest
  end.

Fixpoint dict_get {V} (k : Protocol) (d : list (Protocol * V)) : option V :=
  match d with
  | [] => None
  | (k', v') :: rest => if decide (k = k') then Some v' else dict_get k rest
  end.

Definition keys {V} (d : list (Protocol * V)) : list Protocol := d.*1.

Section AggregateFacade.
Context {World Service : Type}.

(** A connect or close routine of a protocol. *)
Definition Callable : Type := M World unit.

(** [SetupData]: connect routine, close routine, declared features. *)
Definition SetupData : Type := Callable * Callable * list FeatureName.

(** [conf.AppleTV] is not part of the embedded sources; the facade only
    calls its [get_service], which answers a service or [None]. *)
Record AppleTVConf : Type := mkAppleTVConf {
  get_service : Protocol -> option Service;
}.

(** [net.ClientSessionManager] is not part of the embedded sources; the
    facade only schedules its close.  [_session_manager] is what
    [asyncio.ensure_future(self._session_manager.close())] does: nothing of
    the close runs then, and the call raises [RuntimeError] when there is no
    event loop to schedule on. *)
Record FacadeAppleTV : Type := mkFacadeAppleTV {
  _config : AppleTVConf;
  _session_manager : Callable;
  _protocol_handlers : list (Protocol * SetupData);
  _features : FacadeFeatures;
}.

(** [FacadeAppleTV.__init__] *)
Definition new_FacadeAppleTV (config : AppleTVConf) (session_manager : Callable)
    : FacadeAppleTV :=
  {| _config := config;
     _session_manager := session_manager;
     _protocol_handlers := [];
     _features := {| _interfaces := ∅; _feature_map := ∅ |} |}.

(** [FacadeAppleTV.add_protocol] *)
Definition add_protocol (protocol : Protocol) (setup_data : SetupData)
    : M FacadeAppleTV unit :=
  fun self =>
    let handlers := dict_set protocol setup_data (_protocol_handlers self) in
    let '(features, r) := add_mapping protocol setup_data.2 (_features self) in
    ({| _config := _config self;
        _session_manager := _session_manager self;
        _protocol_handlers := handlers;
        _features := features |}, r).

(** Calling a routine: the call is logged, the routine runs on the world. *)
Definition invoke (ev : event) (routine : Callable)
    : M (World * list event) unit :=
  fun '(w, log) =>
    let '(w', r) := routine w in ((w', log ++ [ev]), r).

(** [asyncio.ensure_future(self._session_manager.close())]: the call is
    logged; when it raises, [close] raises before any close routine runs. *)
Definition schedule_session_close (self : FacadeAppleTV)
    : M (World * list event) unit :=
  invoke EvSessionClose (_session_manager self).

Definition connect_handlers (handlers : list (Protocol * SetupData))
    : M (World * list event) unit :=
  for_each (fun '(p, (protocol_connect, _, _)) => invoke (EvConnect p) protocol_connect)
           handlers.

Definition close_handlers (handlers : list (Protocol * SetupData))
    : M (World * list event) unit :=
  for_each (fun '(p, (_, protocol_close, _)) => invoke (EvClose p) protocol_close)
           handlers.

(** [FacadeAppleTV.connect]; each connect routine is awaited before the next
    one is called, so the routines run one after the other. *)
Definition connect (self : FacadeAppleTV) : M (World * list event) unit :=
  connect_handlers (_protocol_handlers self).

(** [FacadeAppleTV.close] *)
Definition close (self : FacadeAppleTV) : M (World * list event) unit :=
  schedule_session_close self ;;; close_handlers (_protocol_handlers self).

(** Running one routine [sel] of every entry of a table in turn, read off
    the routines alone: the world they leave, and that each of them returns
    normally from the world the ones before it left. *)
Definition world_after (sel : SetupData -> Callable)
    (handlers : list (Protocol * SetupData)) (w : World) : World :=
  foldl (fun w h => (sel h.2 w).1) w handlers.

Fixpoint all_return (sel : SetupData -> Callable)
    (handlers : list (Protocol * SetupData)) (w : World) : Prop :=
  match handlers with
  | [] => True
  | h :: rest => (sel h.2 w).2 = Ok tt /\ all_return sel rest (sel h.2 w).1
  end.

(** The connect routine and the close routine of a setup record. *)
Definition connect_of (setup_data : SetupData) : Callable := setup_data.1.1.
Definition close_of (setup_data : SetupData) : Callable := setup_data.1.2.

(** The loop of [FacadeAppleTV.service] over a priority list. *)
Fixpoint first_service (config : AppleTVConf) (priorities : list Protocol)
    : outcome Service :=
  match priorities with
  | [] => Raise (RuntimeError "no service (bug)"%string)
  | protocol :: rest =>
      match get_service config protocol with
      | Some service => Ok service
      | None => first_service config rest
      end
  end.

(** [FacadeAppleTV.service] *)
Definition service (self : FacadeAppleTV) : outcome Service :=
  first_service (_config self) DEFAULT_PRIORITIES.

End AggregateFacade.

Arguments AppleTVConf : clear implicits.
Arguments FacadeAppleTV : clear implicits.
Arguments Callable : clear implicits.
Arguments SetupData : clear implicits.

(** ** The power facade *)

Section PowerFacade.
Context {PowerState World : Type}.

(** The listener of [interface.Power] (a [StateProducer]); the call it
    receives is logged and its handler runs on the world. *)
Record PowerListener : Type := mkPowerListener {
  listener_powerstate_update : PowerState -> PowerState -> M World unit;
}.

Record FacadePower : Type := mkFacadePower {
  listener : PowerListener;
}.

(** [FacadePower.powerstate_update] *)
Definition powerstate_update (self : FacadePower)
    (old_state new_state : PowerState)
    : M (World * list (PowerState * PowerState)) unit :=
  fun '(w, received) =>
    let '(w', r) := listener_powerstate_update (listener self) old_state new_state w in
    ((w', received ++ [(old_state, new_state)]), r).

(** Protocols notify the facade one update after the other; what the
    listener raises goes back to the notifying protocol. *)
Definition notify_all (self : FacadePower)
    (updates : list (PowerState * PowerState))
    (st : World * list (PowerState * PowerState))
    : World * list (PowerState * PowerState) :=
  foldl (fun st u => (powerstate_update self u.1 u.2 st).1) st updates.

End PowerFacade.

Arguments PowerListener : clear implicits.
Arguments FacadePower : clear implicits.

(** ** The metadata facade *)

(** A value passed for [width] or [height]. *)
Inductive pyarg : Type := PyNone | PyInt (n : Z).

#[global] Instance pyarg_eq_dec : EqDecision pyarg.
Proof. solve_decision. Defined.

(** [FacadeMetadata.artwork].  An argument the caller leaves out is [None]
    here and takes the default of the signature, [width=512, height=None];
    [relay] is the method [Relayer.relay] resolves for a name, called with
    keyword arguments. *)
Definition artwork {R : Type} (relay : string -> list (string * pyarg) -> R)
    (width height : option pyarg) : R :=
  let width := default (PyInt 512) width in
  let height := default PyNone height in
  relay "artwork"%string [("width"%string, width); ("height"%string, height)].

(** ** Measures and scenarios *)

(** How many close routines a log shows as invoked. *)
Definition close_invocations (log : list event) : nat :=
  length (List.filter is_close log).

(** Routines on a world that counts the routines that ran to their end. *)
Definition ok_routine : Callable nat := fun w => (S w, Ok tt).

Definition failing_routine : Callable nat := raise (BackendError 1).

(** A session manager whose close is scheduled without further ado, and the
    scheduling when the thread has no event loop. *)
Definition scheduled : Callable nat := ret tt.

Definition no_event_loop : Callable nat :=
  raise (RuntimeError "There is no current event loop"%string).

(** A device configuration without any service, and one with a RAOP
    service only (service records are numbers here). *)
Definition no_services : AppleTVConf nat := {| get_service := fun _ => None |}.

Definition raop_only : AppleTVConf nat :=
  {| get_service := fun p => if decide (p = RAOP) then Some 7 else None |}.

(** A facade with three protocols, added in the order AirPlay, MRP, DMAP;
    the close routine of AirPlay and the connect routine of MRP raise. *)
Definition three_protocols : FacadeAppleTV nat nat :=
  (add_protocol DMAP (ok_routine, ok_routine, [])
     (add_protocol MRP (failing_routine, ok_routine, [])
        (add_protocol AirPlay (ok_routine, failing_routine, [])
           (new_FacadeAppleTV no_services scheduled)).1).1).1.




(** A facade for a device that offers RAOP only, with RAOP added. *)
Definition raop_device : FacadeAppleTV nat nat :=
  (add_protocol RAOP (ok_routine, ok_routine, [])
     (new_FacadeAppleTV raop_only scheduled)).1.

(** ** Calls in a row *)

(** Several [add_mapping] calls on one [FacadeFeatures] object, one after the
    other; the first call that raises ends the sequence. *)
Definition add_mappings (calls : list (Protocol * list FeatureName))
    : M FacadeFeatures unit :=
  for_each (fun c => add_mapping c.1 c.2) calls.

(** Several [add_protocol] calls on one facade, one after the other. *)
Definition add_protocols {World Service : Type}
    (calls : list (Protocol * SetupData World))
    : M (FacadeAppleTV World Service) unit :=
  for_each (fun c => add_protocol c.1 c.2) calls.

(** The elements of a list in the order of their first occurrence. *)
Definition first_occurrences (l : list Protocol) : list Protocol :=
  reverse (remove_dups (reverse l)).

(** The callers of a sequence: each one without an instance, or on the
    priority list. *)
Definition callers_prioritised (self : FacadeFeatures)
    (calls : list (Protocol * list FeatureName)) : Prop :=
  Forall (fun c => is_Some (get self c.1) -> c.1 ∈ DEFAULT_PRIORITIES) calls.

(** ** Strings and slices

    A Python string is the sequence of its code points; the same sequence
    type serves for [bytes], whose elements are byte values. *)
Abbreviation char := N (only parsing).
Abbreviation str := (list N) (only parsing).

(** The code points of an ASCII literal. *)
Fixpoint str_of_string (s : string) : str :=
  match s with
  | EmptyString => []
  | String c rest => Ascii.N_of_ascii c :: str_of_string rest
  end.

(** How a slice bound is read for a sequence of length [len]: a negative
    bound counts from the end, and bounds are cut to [0..len]. *)
Definition clip (len i : Z) : Z :=
  if decide (i < 0)%Z then Z.max 0 (len + i) else Z.min i len.

(** [l[start:stop]]; a bound that is left out is [None]. *)
Definition slice {A} (l : list A) (start stop : option Z) : list A :=
  let len := Z.of_nat (length l) in
  let a := clip len (default 0%Z start) in
  let b := clip len (default len stop) in
  take (Z.to_nat (b - a)) (drop (Z.to_nat a) l).

(** [s.find(c)] for a string [c] of one character. *)
Fixpoint find (c : char) (s : str) : Z :=
  match s with
  | [] => (-1)%Z
  | x :: rest =>
      if decide (x = c) then 0%Z
      else let k := find c rest in
           if decide (k = -1)%Z then (-1)%Z else (k + 1)%Z
  end.

(** [s.split(sep)] for a separator of one character. *)
Fixpoint split (sep : char) (s : str) : list str :=
  match s with
  | [] => [[]]
  | x :: rest =>
      if decide (x = sep) then [] :: split sep rest
      else match split sep rest with
           | piece :: pieces => (x :: piece) :: pieces
           | [] => [[x]]
           end
  end.

(** [sep.join(pieces)] for a separator of one character. *)
Fixpoint join (sep : char) (pieces : list str) : str :=
  match pieces with
  | [] => []
  | [piece] => piece
  | piece :: rest => piece ++ sep :: join sep rest
  end.

(** Exceptions of the support functions and of the script: the built-in
    ones they can run into, and whatever a called function raises. *)
Inductive script_exn : Type :=
| AssertionError
| IndexError
| Raised (e : exn).

Inductive result (A : Type) : Type :=
| Return (a : A)
| Throw (e : script_exn).
Arguments Return {A} a.
Arguments Throw {A} e.

(** ** [pyatv/support/__init__.py] *)

(** [_shorten].  The argument is a [str] (left) or [bytes] (right);
    [str_of_bytes] is Python's [str] applied to a bytes object. *)
Definition _shorten (str_of_bytes : list N -> str) (text : str + list N)
    (length : Z) : str :=
  match text with
  | inl text =>
      if decide (Z.of_nat (List.length text) < length)%Z then text
      else slice text None (Some (length - 3)%Z) ++ str_of_string "..."
  | inr text =>
      str_of_bytes
        (if decide (Z.of_nat (List.length text) < length)%Z then text
         else slice text None (Some (length - 3)%Z) ++ str_of_string "...")
  end.

(** One hexadecimal digit, in lower case, for a value in [0..15]. *)
Definition hex_digit (d : Z) : char :=
  if decide (d < 10)%Z then Z.to_N (48 + d) else Z.to_N (87 + d).

(** [f"{n:02x}"] for [n] in [0..255], the range of [(... + 1) % 256]. *)
Definition format_02x (n : Z) : str := [hex_digit (n / 16); hex_digit (n mod 16)].

(** [s.upper()] for a string of hexadecimal digits in lower case. *)
Definition upper_hex (s : str) : str :=
  (fun c : N => if decide (97 <= c <= 102)%N then (c - 32)%N else c) <$> s.

(** The value of a hexadecimal digit in either case, and of a string of two
    of them. *)
Definition hex_value (c : char) : option Z :=
  if decide (48 <= c <= 57)%N then Some (Z.of_N c - 48)%Z
  else if decide (97 <= c <= 102)%N then Some (Z.of_N c - 87)%Z
  else if decide (65 <= c <= 70)%N then Some (Z.of_N c - 55)%Z
  else None.

Definition hex_pair_value (s : str) : option Z :=
  match s with
  | [a; b] =>
      match hex_value a, hex_value b with
      | Some x, Some y => Some (16 * x + y)%Z
      | _, _ => None
      end
  | _ => None
  end.

(** [shift_hex_identifier]; [int16] is [int(first, 16)] with [None] for
    [ValueError], [isupper] is [str.isupper]. *)
Definition shift_hex_identifier (int16 : str -> option Z) (isupper : str -> bool)
    (identifier : str) : result str :=
  if decide (2 <= length identifier) then
    let first := slice identifier None (Some 2%Z) in
    let rest := slice identifier (Some 2%Z) None in
    match int16 first with
    | None => Throw (Raised ValueError)
    | Some n =>
        let shifted := format_02x ((n + 1) mod 256) in
        let shifted := if isupper identifier then upper_hex shifted else shifted in
        Return (shifted ++ rest)
    end
  else Throw AssertionError.

(** ** [pyatv/scripts/atvremote.py] *)

(** A command argument after [_typeparse]: an [int] or a [str]. *)
Inductive pyval : Type := PyInteger (n : Z) | PyString (s : str).

(** [_typeparse] of [_extract_command_with_args]; [py_int] is [int(value)],
    [None] standing for [ValueError]. *)
Definition _typeparse (py_int : str -> option Z) (value : str) : pyval :=
  if decide (head value = Some 34%N /\ last value = Some 34%N)
  then PyString (slice value (Some 1%Z) (Some (-1)%Z))
  else match py_int value with
       | Some n => PyInteger n
       | None => PyString value
       end.

(** [l[i]] *)
Definition getitem {A} (l : list A) (i : nat) : result A :=
  match l !! i with
  | Some x => Return x
  | None => Throw IndexError
  end.

Section ExtractCommand.
Context {V : Type}.
(** The enumerations and [float] are not part of the embedded sources: what
    their constructors make of an argument are parameters, and [plain] is an
    argument passed on as it is. *)
Variable py_int : str -> option Z.
Variable plain : pyval -> V.
Variables ShuffleState RepeatState InputAction TouchAction float : pyval -> result V.

(** [_parse_args] of [_extract_command_with_args] *)
Definition _parse_args (cmd : str) (args : list str) : result (list V) :=
  let args := _typeparse py_int <$> args in
  let construct (f : pyval -> result V) : result (list V) :=
    match getitem args 0 with
    | Return a0 => match f a0 with Return v => Return [v] | Throw e => Throw e end
    | Throw e => Throw e
    end in
  if decide (cmd = str_of_string "set_shuffle") then construct ShuffleState
  else if decide (cmd = str_of_string "set_repeat") then construct RepeatState
  else if decide (cmd ∈ str_of_string <$>
                   ["up"; "down"; "left"; "right"; "select"; "menu"; "home"; "click"]%string)
  then construct InputAction
  else if decide (cmd = str_of_string "set_volume") then construct float
  else if decide (cmd = str_of_string "action") then
    match getitem args 0, getitem args 1, getitem args 2 with
    | Return a0, Return a1, Return a2 =>
        match TouchAction a2 with
        | Return v => Return [plain a0; plain a1; v]
        | Throw e => Throw e
        end
    | Throw e, _, _ | _, Throw e, _ | _, _, Throw e => Throw e
    end
  else Return (plain <$> args).

(** [_extract_command_with_args] *)
Definition _extract_command_with_args (cmd : str) : result (str * list V) :=
  let equal_sign := find 61%N cmd in
  if decide (equal_sign = -1)%Z then Return (cmd, [])
  else
    let command := slice cmd (Some 0%Z) (Some equal_sign) in
    let args := split 44%N (slice cmd (Some (equal_sign + 1)%Z) None) in
    match _parse_args command args with
    | Return parsed => Return (command, parsed)
    | Throw e => Throw e
    end.

End ExtractCommand.

(** [s.split(sep, maxsplit=1)] for a separator of one character. *)
Definition split_once (sep : char) (s : str) : list str :=
  let k := find sep s in
  if decide (k = -1)%Z then [s]
  else [slice s None (Some k); slice s (Some (k + 1)%Z) None].

(** [dict(items)] for items that are lists of strings, added to [d]: every
    item has to have two elements, a later key replaces an earlier one. *)
Fixpoint dict_of_items (items : list (list str)) (d : gmap (list N) (list N))
    : result (gmap (list N) (list N)) :=
  match items with
  | [] => Return d
  | [key; value] :: rest => dict_of_items rest (<[key := value]> d)
  | _ :: _ => Throw (Raised ValueError)
  end.

(** The [properties] that [_manual_device] computes from
    [args.service_properties] before it builds the configuration. *)
Definition _manual_device_properties (service_properties : str)
    : result (gmap (list N) (list N)) :=
  match service_properties with
  | [] => Return ∅
  | split_char :: rest =>
      dict_of_items (split_once 61%N <$> split split_char rest) ∅
  end.

(** What [_scan_for_device] writes. *)
Inductive scan_output (Device : Type) : Type :=
| LogError (msg : string)
| PrintFoundAppleTVs (devices : list Device).
Arguments LogError {Device} msg.
Arguments PrintFoundAppleTVs {Device} devices.

Section ScanForDevice.
Context {Device Timeout ScanProtocol : Type}.
Variable device_name : Device -> str.

(** The attributes of [args] that [_scan_for_device] reads; an attribute
    that is [None] in Python is [None] here. *)
Record ScanArgs : Type := mkScanArgs {
  args_name : option str;
  args_id : option str;
  args_scan_hosts : option (list str);
}.

(** The keyword arguments passed to [scan]; [identifier] and [hosts] are
    absent ([None]) or present with their value. *)
Record ScanOptions : Type := mkScanOptions {
  opt_timeout : Timeout;
  opt_protocol : ScanProtocol;
  opt_identifier : option (option str);
  opt_hosts : option (list str);
}.

(** Truth value of an optional sequence: [None] and the empty one are false. *)
Definition truthy {A} (x : option (list A)) : bool :=
  match x with Some (_ :: _) => true | _ => false end.

(** [_scan_for_device]; [scan] is [pyatv.scan] with the loop and the
    storage it is called with. *)
Definition _scan_for_device (scan : ScanOptions -> result (list Device))
    (args : ScanArgs) (timeout : Timeout) (protocol : ScanProtocol)
    : list (scan_output Device) * result (option Device) :=
  let options :=
    {| opt_timeout := timeout;
       opt_protocol := protocol;
       opt_identifier := if truthy (args_name args) then None else Some (args_id args);
       opt_hosts := if truthy (args_scan_hosts args) then args_scan_hosts args else None |} in
  match scan options with
  | Throw e => ([], Throw e)
  | Return atvs =>
      let devices :=
        if truthy (args_name args)
        then List.filter (fun atv => bool_decide (Some (device_name atv) = args_name args)) atvs
        else atvs in
      match atvs with
      | [] => ([LogError "Could not find any Apple TV on current network"], Return None)
      | _ :: _ =>
          if decide (1 < List.length devices) then
            ([LogError "Found more than one Apple TV; specify one using --id";
              PrintFoundAppleTVs devices], Return None)
          else ([], match getitem devices 0 with
                    | Return d => Return (Some d)
                    | Throw e => Throw e
                    end)
      end
  end.

End ScanForDevice.

(** * Properties *)

(** ** Priorities *)

Lemma index_Ok_elem_of x l n : index x l = Ok n -> x ∈ l.
Proof.
  revert n. induction l as [|y l IH]; intros n; simpl; [done|].
  case_decide as Hxy; [subst; intros _; left|].
  destruct (index x l) as [m|e] eqn:Hi; [|done].
  intros _. right. by eapply IH.
Qed.

Lemma elem_of_index_Ok x l : x ∈ l -> exists n, index x l = Ok n.
Proof.
  induction 1 as [x l|x y l _ [n IH]]; simpl.
  - rewrite decide_True by done. by exists 0.
  - case_decide; [by exists 0|]. rewrite IH. by exists (S n).
Qed.

Lemma has_higher_priority_true first second :
  _has_higher_priority first second = Ok true <->
  exists i j, index first DEFAULT_PRIORITIES = Ok i /\
              index second DEFAULT_PRIORITIES = Ok j /\ i < j.
Proof.
  unfold _has_higher_priority. split.
  - destruct (index first _) as [i|] eqn:Hi; [|done].
    destruct (index second _) as [j|] eqn:Hj; [|done].
    intros [= Hlt%bool_decide_eq_true]. by exists i, j.
  - intros (i & j & -> & -> & Hlt). by rewrite bool_decide_eq_true_2.
Qed.

Lemma has_higher_priority_irrefl p : _has_higher_priority p p <> Ok true.
Proof.
  rewrite has_higher_priority_true. intros (i & j & Hi & Hj & Hlt).
  assert (i = j) by congruence. lia.
Qed.

Lemma has_higher_priority_trans p q r :
  _has_higher_priority p q = Ok true ->
  _has_higher_priority q r = Ok true ->
  _has_higher_priority p r = Ok true.
Proof.
  rewrite !has_higher_priority_true.
  intros (i & j & Hi & Hj & Hij) (j' & k & Hj' & Hk & Hjk).
  assert (j = j') by congruence.
  exists i, k. repeat split; [done..|lia].
Qed.

Lemma has_higher_priority_asym p q :
  _has_higher_priority p q = Ok true -> _has_higher_priority q p = Ok false.
Proof.
  rewrite has_higher_priority_true. intros (i & j & Hi & Hj & Hij).
  unfold _has_higher_priority. rewrite Hj, Hi.
  by rewrite bool_decide_eq_false_2 by lia.
Qed.

Lemma has_higher_priority_defined p q :
  p ∈ DEFAULT_PRIORITIES -> q ∈ DEFAULT_PRIORITIES ->
  exists b, _has_higher_priority p q = Ok b.
Proof.
  intros [i Hi]%elem_of_index_Ok [j Hj]%elem_of_index_Ok.
  unfold _has_higher_priority. rewrite Hi, Hj. eauto.
Qed.

(** ** The loop of [add_mapping] *)

Lemma for_each_cons {St A} (body : A -> M St unit) x rest s :
  for_each body (x :: rest) s =
  match body x s with
  | (s', Ok _) => for_each body rest s'
  | (s', Raise e) => (s', Raise e)
  end.
Proof. reflexivity. Qed.

Lemma for_each_app {St A} (body : A -> M St unit) l1 l2 s :
  for_each body (l1 ++ l2) s =
  match for_each body l1 s with
  | (s', Ok _) => for_each body l2 s'
  | (s', Raise e) => (s', Raise e)
  end.
Proof.
  revert s. induction l1 as [|x l1 IH]; intros s; [done|].
  rewrite <- app_comm_cons, !for_each_cons.
  destruct (body x s) as [s' [[]|e]]; [apply IH|done].
Qed.

Section FeatureMap.
Implicit Types fm : gmap FeatureName (Protocol * Instance).
Implicit Types f g : FeatureName.
Implicit Types p q : Protocol.
Implicit Types i j : Instance.

Lemma add_feature_other p i g fm f :
  f <> g -> (add_feature p i g fm).1 !! f = fm !! f.
Proof.
  intros Hne. unfold add_feature.
  destruct (fm !! g) as [[q j]|]; simpl.
  - destruct (_has_higher_priority p q) as [[]|]; simpl; [|done..].
    by rewrite lookup_insert_ne.
  - by rewrite lookup_insert_ne.
Qed.

(** One step of the loop either keeps a holder or replaces it by the
    adding protocol, which then has strictly higher priority. *)
Lemma add_feature_holder p i g fm f q j :
  fm !! f = Some (q, j) ->
  (add_feature p i g fm).1 !! f = Some (q, j) \/
  ((add_feature p i g fm).1 !! f = Some (p, i) /\
   _has_higher_priority p q = Ok true).
Proof.
  intros Hf. destruct (decide (f = g)) as [->|Hne].
  - unfold add_feature. rewrite Hf. simpl.
    destruct (_has_higher_priority p q) as [[]|]; simpl; [|by left..].
    right. by rewrite lookup_insert_eq.
  - left. by rewrite add_feature_other.
Qed.

Lemma for_each_add_feature_holder p i features fm f q j :
  fm !! f = Some (q, j) ->
  (for_each (add_feature p i) features fm).1 !! f = Some (q, j) \/
  ((for_each (add_feature p i) features fm).1 !! f = Some (p, i) /\
   _has_higher_priority p q = Ok true).
Proof.
  revert fm q j. induction features as [|g rest IH]; intros fm q j Hf; [by left|].
  rewrite for_each_cons.
  pose proof (add_feature_holder p i g fm f q j Hf) as Hstep.
  destruct (add_feature p i g fm) as [fm' [[]|e]]; simpl in *; [|done].
  destruct Hstep as [Hkeep|[Hnew Hhigh]].
  - by apply IH.
  - destruct (IH fm' p i Hnew) as [Hkeep|[_ Hpp]].
    + by right.
    + by destruct (has_higher_priority_irrefl p).
Qed.

Lemma claim_claim p i entry : claim p i (claim p i entry) = claim p i entry.
Proof.
  destruct entry as [[q j]|]; simpl.
  - case_decide as Hpq; simpl; [|by rewrite decide_False].
    by rewrite decide_False by apply has_higher_priority_irrefl.
  - by rewrite decide_False by apply has_higher_priority_irrefl.
Qed.

Lemma add_feature_prioritised p i g fm :
  p ∈ DEFAULT_PRIORITIES -> holders_prioritised fm ->
  exists fm',
    add_feature p i g fm = (fm', Ok tt) /\
    holders_prioritised fm' /\
    fm' !! g = claim p i (fm !! g).
Proof.
  intros Hp Hwf. unfold add_feature.
  assert (holders_prioritised (<[g:=(p, i)]> fm)) as Hwf'.
  { intros f q j. rewrite lookup_insert. case_decide; [|by apply Hwf].
    by intros [= <- <-]. }
  destruct (fm !! g) as [[q j]|] eqn:Hg; simpl.
  - destruct (has_higher_priority_defined p q Hp) as [b Hb]; [by eapply Hwf|].
    rewrite Hb. destruct b.
    + eexists. split; [done|]. split; [done|].
      by rewrite lookup_insert_eq, decide_True.
    + eexists. split; [done|]. split; [done|].
      by rewrite Hg, decide_False.
  - eexists. split; [done|]. split; [done|]. by rewrite lookup_insert_eq.
Qed.

Lemma for_each_add_feature_prioritised p i features fm :
  p ∈ DEFAULT_PRIORITIES -> holders_prioritised fm ->
  exists fm',
    for_each (add_feature p i) features fm = (fm', Ok tt) /\
    holders_prioritised fm' /\
    forall f, fm' !! f =
              if decide (f ∈ features) then claim p i (fm !! f) else fm !! f.
Proof.
  intros Hp. revert fm. induction features as [|g rest IH]; intros fm Hwf.
  - exists fm. split; [done|]. split; [done|]. intros f.
    by rewrite decide_False by apply not_elem_of_nil.
  - destruct (add_feature_prioritised p i g fm Hp Hwf) as (fm1 & Hstep & Hwf1 & Hg).
    destruct (IH fm1 Hwf1) as (fm' & Hrest & Hwf' & Hlook).
    exists fm'. rewrite for_each_cons, Hstep. split; [done|]. split; [done|].
    intros f. rewrite Hlook.
    assert (fm1 !! f = if decide (f = g) then claim p i (fm !! f) else fm !! f)
      as Hf1.
    { case_decide as Hfg; [by subst|].
      pose proof (add_feature_other p i g fm f Hfg) as Ho.
      by rewrite Hstep in Ho. }
    rewrite Hf1. destruct (decide (f = g)) as [->|Hfg].
    + rewrite (decide_True (P := g ∈ g :: rest)) by left.
      case_decide; [apply claim_claim|done].
    + destruct (decide (f ∈ rest)) as [Hin|Hnin].
      * by rewrite decide_True by by right.
      * rewrite decide_False; [done|]. by intros [?|?]%elem_of_cons.
Qed.

End FeatureMap.

(** ** [FacadeFeatures.add_mapping] and [get_feature] *)

Lemma add_mapping_interfaces protocol features self :
  _interfaces (add_mapping protocol features self).1 = _interfaces self.
Proof.
  unfold add_mapping. destruct (get self protocol); [|done].
  by destruct (for_each _ _ _).
Qed.

Lemma add_mapping_feature_map protocol features self instance :
  get self protocol = Some instance ->
  _feature_map (add_mapping protocol features self).1 =
  (for_each (add_feature protocol instance) features (_feature_map self)).1.
Proof.
  intros Hget. unfold add_mapping. rewrite Hget.
  by destruct (for_each _ _ _).
Qed.

Lemma add_mapping_prioritised protocol instance features self :
  get self protocol = Some instance ->
  protocol ∈ DEFAULT_PRIORITIES ->
  holders_prioritised (_feature_map self) ->
  exists self',
    add_mapping protocol features self = (self', Ok tt) /\
    _interfaces self' = _interfaces self /\
    holders_prioritised (_feature_map self') /\
    forall f, _feature_map self' !! f =
              if decide (f ∈ features)
              then claim protocol instance (_feature_map self !! f)
              else _feature_map self !! f.
Proof.
  intros Hget Hp Hwf.
  destruct (for_each_add_feature_prioritised protocol instance features
              (_feature_map self) Hp Hwf) as (fm' & Hrun & Hwf' & Hlook).
  unfold add_mapping. rewrite Hget, Hrun. by eexists.
Qed.

(** C10: when the relayer has no Features instance for a protocol,
    [add_mapping] for that protocol changes nothing (the whole object, and so
    the feature map, is as before) and returns normally. *)
Theorem add_mapping_unregistered_noop
    (self : FacadeFeatures) (protocol : Protocol) (features : list FeatureName) :
  get self protocol = None ->
  add_mapping protocol features self = (self, Ok tt).
Proof. intros Hget. unfold add_mapping. by rewrite Hget. Qed.

Lemma add_mapping_unregistered_noop_witness :
  let self := {| _interfaces := {[MRP := 1]};
                 _feature_map := {[3%N := (MRP, 1)]} |} in
  get self AirPlay = None /\
  add_mapping AirPlay [3%N; 4%N] self = (self, Ok tt).
Proof.
  split; [reflexivity|].
  apply add_mapping_unregistered_noop. reflexivity.
Defined.

(** C3: for a feature without a holder, [get_feature] returns a
    [FeatureInfo] with state [Unsupported] and empty options; and whenever
    [get_feature] raises, the feature has a holder and the exception is the
    one raised by the holder's own [get_feature]. *)
Theorem get_feature_unclaimed_unsupported
    (instance_get_feature : Instance -> FeatureName -> outcome FeatureInfo)
    (feature_name : FeatureName) (self : FacadeFeatures) :
  (_feature_map self !! feature_name = None ->
   exists info,
     get_feature instance_get_feature feature_name self = Ok info /\
     state info = Unsupported /\ options info = ∅) /\
  (forall e,
     get_feature instance_get_feature feature_name self = Raise e ->
     exists p i,
       _feature_map self !! feature_name = Some (p, i) /\
       instance_get_feature i feature_name = Raise e).
Proof.
  unfold get_feature. split.
  - intros ->. by eexists.
  - intros e. destruct (_feature_map self !! feature_name) as [[p i]|]; [|done].
    intros He. by exists p, i.
Qed.

Lemma get_feature_unclaimed_unsupported_witness :
  let self := {| _interfaces := {[MRP := 1]};
                 _feature_map := {[3%N := (MRP, 1)]} |} in
  let backend := fun (_ : Instance) (_ : FeatureName) =>
                   Raise (A := FeatureInfo) (BackendError 7) in
  _feature_map self !! 4%N = None /\
  exists info,
    get_feature backend 4%N self = Ok info /\
    state info = Unsupported /\ options info = ∅.
Proof.
  split; [reflexivity|].
  apply get_feature_unclaimed_unsupported. reflexivity.
Defined.

Lemma add_mapping_holder
    (self : FacadeFeatures) (protocol : Protocol) (features : list FeatureName)
    (f : FeatureName) (q : Protocol) (j : Instance) :
  _feature_map self !! f = Some (q, j) ->
  _feature_map (add_mapping protocol features self).1 !! f = Some (q, j) \/
  exists i, get self protocol = Some i /\
            _feature_map (add_mapping protocol features self).1 !! f
              = Some (protocol, i) /\
            _has_higher_priority protocol q = Ok true.
Proof.
  intros Hf. destruct (get self protocol) as [i|] eqn:Hget.
  - rewrite (add_mapping_feature_map _ _ _ i Hget).
    destruct (for_each_add_feature_holder protocol i features _ f q j Hf)
      as [Hkeep|[Hnew Hhigh]]; [by left|].
    right. by exists i.
  - left. unfold add_mapping. by rewrite Hget.
Qed.

(** C2: a call of [add_mapping] leaves the entry of a feature that has a
    holder as it is, or replaces it by the calling protocol with its
    instance, and then the calling protocol has strictly higher priority than
    the holder; a protocol that does not have strictly higher priority than
    the holder (lower, equal, or not comparable) leaves the entry unchanged. *)
Theorem add_mapping_overwrites_only_by_higher
    (self : FacadeFeatures) (protocol : Protocol) (features : list FeatureName)
    (f : FeatureName) (q : Protocol) (j : Instance) :
  _feature_map self !! f = Some (q, j) ->
  let self' := (add_mapping protocol features self).1 in
  (_feature_map self' !! f = Some (q, j) \/
   exists i, get self protocol = Some i /\
             _feature_map self' !! f = Some (protocol, i) /\
             _has_higher_priority protocol q = Ok true) /\
  (_has_higher_priority protocol q <> Ok true ->
   _feature_map self' !! f = Some (q, j)).
Proof.
  intros Hf self'. subst self'.
  pose proof (add_mapping_holder self protocol features f q j Hf) as Hcases.
  split; [done|].
  intros Hnot. by destruct Hcases as [Hkeep|(i & _ & _ & Hhigh)].
Qed.

Lemma add_mapping_overwrites_only_by_higher_witness :
  let self := {| _interfaces := {[MRP := 1; AirPlay := 2]};
                 _feature_map := {[3%N := (DMAP, 5)]} |} in
  _feature_map self !! 3%N = Some (DMAP, 5) /\
  _feature_map (add_mapping MRP [3%N] self).1 !! 3%N = Some (MRP, 1) /\
  _feature_map (add_mapping AirPlay [3%N] self).1 !! 3%N = Some (DMAP, 5).
Proof.
  split; [reflexivity|].
  pose proof (add_mapping_overwrites_only_by_higher
                {| _interfaces := {[MRP := 1; AirPlay := 2]};
                   _feature_map := {[3%N := (DMAP, 5)]} |}
                AirPlay [3%N] 3%N DMAP 5 eq_refl) as [_ Hlow].
  split; [reflexivity|].
  apply Hlow. discriminate.
Defined.

(** Over any sequence of [add_mapping] calls, the holder of a feature is the
    original one or a protocol of strictly higher priority. *)
Lemma add_mapping_calls_only_raise_priority
    (calls : list (Protocol * list FeatureName)) (self : FacadeFeatures)
    (f : FeatureName) (q : Protocol) (j : Instance) :
  _feature_map self !! f = Some (q, j) ->
  let self' := foldl (fun s c => (add_mapping c.1 c.2 s).1) self calls in
  _feature_map self' !! f = Some (q, j) \/
  exists p i, _feature_map self' !! f = Some (p, i) /\
              _has_higher_priority p q = Ok true.
Proof.
  revert self q j. induction calls as [|[p fs] calls IH]; intros self q j Hf; [by left|].
  simpl.
  destruct (add_mapping_holder self p fs f q j Hf)
    as [Hkeep|(i & _ & Hnew & Hhigh)].
  - by apply IH.
  - destruct (IH _ p i Hnew) as [Hkeep|(p' & i' & Hlook & Hhigh')].
    + right. by exists p, i.
    + right. exists p', i'. split; [done|]. by eapply has_higher_priority_trans.
Qed.

Lemma claim_by_higher p i (entry : option (Protocol * Instance)) :
  (forall q j, entry = Some (q, j) -> _has_higher_priority p q = Ok true) ->
  claim p i entry = Some (p, i).
Proof.
  destruct entry as [[q j]|]; simpl; [|done].
  intros Hq. by rewrite decide_True by by eapply Hq.
Qed.

Lemma claim_by_lower p i q j :
  _has_higher_priority q p = Ok true -> claim p i (Some (q, j)) = Some (q, j).
Proof.
  intros Hqp%has_higher_priority_asym. simpl.
  rewrite decide_False; [done|]. by rewrite Hqp.
Qed.

Lemma claim_holder p i (entry : option (Protocol * Instance)) q j :
  claim p i entry = Some (q, j) -> (q, j) = (p, i) \/ entry = Some (q, j).
Proof.
  destruct entry as [[q' j']|]; simpl.
  - case_decide; intros [= <- <-]; [by left|by right].
  - intros [= <- <-]. by left.
Qed.

(** C1: let B2 have higher priority than B1 on the priority list, both with
    a registered Features instance, both declaring feature F.  From a feature
    map whose holders are on the priority list and where F is free or held
    with lower priority than B2 (the empty map of a new facade is one), both
    orders of the two [add_mapping] calls return normally and leave F with
    B2's instance, and [get_feature F] is the answer of that instance. *)
Theorem get_feature_winner_order_independent
    (instance_get_feature : Instance -> FeatureName -> outcome FeatureInfo)
    (self : FacadeFeatures) (B1 B2 : Protocol) (i1 i2 : Instance)
    (S1 S2 : list FeatureName) (F : FeatureName) :
  _has_higher_priority B2 B1 = Ok true ->
  get self B1 = Some i1 ->
  get self B2 = Some i2 ->
  F ∈ S1 ->
  F ∈ S2 ->
  holders_prioritised (_feature_map self) ->
  (forall q j, _feature_map self !! F = Some (q, j) ->
               _has_higher_priority B2 q = Ok true) ->
  exists s12 s21,
    (add_mapping B1 S1 ;;; add_mapping B2 S2) self = (s12, Ok tt) /\
    (add_mapping B2 S2 ;;; add_mapping B1 S1) self = (s21, Ok tt) /\
    _feature_map s12 !! F = Some (B2, i2) /\
    _feature_map s21 !! F = Some (B2, i2) /\
    get_feature instance_get_feature F s12 = instance_get_feature i2 F /\
    get_feature instance_get_feature F s21 = instance_get_feature i2 F.
Proof.
  intros Hhigh Hget1 Hget2 HF1 HF2 Hwf Hfree.
  pose proof Hhigh as (n2 & n1 & Hn2%index_Ok_elem_of & Hn1%index_Ok_elem_of & _)
    %has_higher_priority_true.
  (* B1 first, then B2 *)
  destruct (add_mapping_prioritised B1 i1 S1 self Hget1 Hn1 Hwf)
    as (s1 & Hrun1 & Hi1 & Hwf1 & Hlook1).
  assert (get s1 B2 = Some i2) as Hget2' by (unfold get; by rewrite Hi1).
  destruct (add_mapping_prioritised B2 i2 S2 s1 Hget2' Hn2 Hwf1)
    as (s12 & Hrun12 & _ & _ & Hlook12).
  (* B2 first, then B1 *)
  destruct (add_mapping_prioritised B2 i2 S2 self Hget2 Hn2 Hwf)
    as (s2 & Hrun2 & Hi2 & Hwf2 & Hlook2).
  assert (get s2 B1 = Some i1) as Hget1' by (unfold get; by rewrite Hi2).
  destruct (add_mapping_prioritised B1 i1 S1 s2 Hget1' Hn1 Hwf2)
    as (s21 & Hrun21 & _ & _ & Hlook21).
  assert (_feature_map s12 !! F = Some (B2, i2)) as H12.
  { rewrite Hlook12, decide_True by done. apply claim_by_higher.
    intros q j. rewrite Hlook1, decide_True by done.
    intros [[= -> ->]|Hold]%claim_holder; [done|by eapply Hfree]. }
  assert (_feature_map s21 !! F = Some (B2, i2)) as H21.
  { rewrite Hlook21, decide_True by done.
    rewrite Hlook2, decide_True by done.
    rewrite (claim_by_higher B2 i2) by done. by apply claim_by_lower. }
  exists s12, s21. unfold bind. rewrite Hrun1, Hrun12, Hrun2, Hrun21.
  unfold get_feature. by rewrite H12, H21.
Qed.

Lemma get_feature_winner_order_independent_witness :
  let answers := fun (i : Instance) (_ : FeatureName) =>
                   Ok {| state := if decide (i = 2) then Available else Unavailable;
                         options := ∅ |} in
  let self := {| _interfaces := {[AirPlay := 1; MRP := 2]}; _feature_map := ∅ |} in
  exists s12 s21,
    (add_mapping AirPlay [3%N; 4%N] ;;; add_mapping MRP [4%N]) self = (s12, Ok tt) /\
    (add_mapping MRP [4%N] ;;; add_mapping AirPlay [3%N; 4%N]) self = (s21, Ok tt) /\
    _feature_map s12 !! 4%N = Some (MRP, 2) /\
    _feature_map s21 !! 4%N = Some (MRP, 2) /\
    get_feature answers 4%N s12 = answers 2 4%N /\
    get_feature answers 4%N s21 = answers 2 4%N.
Proof.
  intros answers self.
  apply (get_feature_winner_order_independent answers self AirPlay MRP 1 2).
  - reflexivity.
  - reflexivity.
  - reflexivity.
  - apply list_elem_of_In. simpl. tauto.
  - apply list_elem_of_In. simpl. tauto.
  - intros f q j Hf. discriminate Hf.
  - intros q j Hf. discriminate Hf.
Defined.

(** ** The protocol table *)

Lemma keys_dict_set {V} (k : Protocol) (v : V) (d : list (Protocol * V)) :
  keys (dict_set k v d) = if decide (k ∈ keys d) then keys d else keys d ++ [k].
Proof.
  unfold keys. induction d as [|[k' v'] d IH].
  - case_decide as Hin; [|done]. by apply not_elem_of_nil in Hin.
  - cbn [dict_set]. destruct (decide (k = k')) as [->|Hne].
    + rewrite decide_True; [done|]. cbn. left.
    + rewrite fmap_cons, IH. cbn [fst fmap list_fmap].
      destruct (decide (k ∈ d.*1)) as [Hin|Hnin].
      * rewrite decide_True; [done|]. by right.
      * rewrite decide_False; [done|]. by intros [?|?]%elem_of_cons.
Qed.

Lemma dict_get_dict_set {V} (k k' : Protocol) (v : V) (d : list (Protocol * V)) :
  dict_get k' (dict_set k v d) = if decide (k' = k) then Some v else dict_get k' d.
Proof.
  induction d as [|[k0 v0] d IH]; simpl.
  - by destruct (decide (k' = k)).
  - destruct (decide (k = k0)) as [->|Hne]; simpl.
    + by destruct (decide (k' = k0)).
    + rewrite IH. destruct (decide (k' = k0)) as [->|]; [|done].
      by rewrite decide_False by done.
Qed.

Lemma dict_get_Some_keys {V} (k : Protocol) (v : V) (d : list (Protocol * V)) :
  dict_get k d = Some v -> k ∈ keys d.
Proof.
  unfold keys. induction d as [|[k0 v0] d IH]; simpl; [done|].
  case_decide as Hk; [subst; intros _; left|]. intros Hd. right. by apply IH.
Qed.

Lemma NoDup_keys_dict_set {V} (k : Protocol) (v : V) (d : list (Protocol * V)) :
  NoDup (keys d) -> NoDup (keys (dict_set k v d)).
Proof.
  intros Hnd. rewrite keys_dict_set. case_decide as Hin; [done|].
  apply NoDup_app. split; [done|]. split; [|apply NoDup_singleton].
  intros x Hx ->%list_elem_of_singleton. done.
Qed.

Section HandlerLoops.
Context {World Service : Type}.
Implicit Types self : FacadeAppleTV World Service.
Implicit Types handlers : list (Protocol * SetupData World).
Implicit Types log : list event.

(** A loop that invokes one routine of every entry of the table either
    completes, having invoked the routines of all entries in the order of the
    table, or stops at the first routine that raises. *)
Lemma for_each_invoke_spec (ev : Protocol -> event)
    (sel : SetupData World -> Callable World) handlers (w : World) log :
  match for_each (fun h => invoke (ev h.1) (sel h.2)) handlers (w, log) with
  | ((w', log'), Ok _) => log' = log ++ (ev <$> keys handlers)
  | ((w', log'), Raise e) =>
      exists pre h post w1,
        handlers = pre ++ h :: post /\
        for_each (fun h => invoke (ev h.1) (sel h.2)) pre (w, log)
          = ((w1, log ++ (ev <$> keys pre)), Ok tt) /\
        sel h.2 w1 = (w', Raise e) /\
        log' = log ++ (ev <$> keys pre) ++ [ev h.1]
  end.
Proof.
  revert w log. induction handlers as [|h rest IH]; intros w log.
  - simpl. by rewrite app_nil_r.
  - rewrite for_each_cons. unfold invoke at 1.
    destruct (sel h.2 w) as [w1 [[]|e]] eqn:Hsel.
    + specialize (IH w1 (log ++ [ev h.1])).
      destruct (for_each _ rest _) as [[w' log'] [[]|e]].
      * rewrite IH. unfold keys. simpl. by rewrite <- app_assoc.
      * destruct IH as (pre & h' & post & w2 & -> & Hpre & Hh' & ->).
        exists (h :: pre), h', post, w2. split; [done|].
        split; [|split; [done|]].
        -- rewrite for_each_cons. unfold invoke at 1. rewrite Hsel, Hpre.
           unfold keys. simpl. by rewrite <- app_assoc.
        -- unfold keys. simpl. by rewrite <- !app_assoc.
    + exists [], h, rest, w. simpl. by rewrite app_nil_r.
Qed.

Lemma for_each_ext {St A} (body body' : A -> M St unit) (l : list A) (s : St) :
  (forall x s, body x s = body' x s) -> for_each body l s = for_each body' l s.
Proof.
  intros Hext. revert s. induction l as [|x l IH]; intros s; [done|].
  rewrite !for_each_cons, Hext. by destruct (body' x s) as [s' [[]|e]].
Qed.

Lemma connect_handlers_invoke handlers st :
  connect_handlers handlers st
  = for_each (fun h => invoke (EvConnect h.1) h.2.1.1)
      handlers st.
Proof. apply for_each_ext. by intros [p [[c cl] fs]] s. Qed.

Lemma close_handlers_invoke handlers st :
  close_handlers handlers st
  = for_each (fun h => invoke (EvClose h.1) h.2.1.2)
      handlers st.
Proof. apply for_each_ext. by intros [p [[c cl] fs]] s. Qed.

Lemma close_invocations_app log1 log2 :
  close_invocations (log1 ++ log2) = close_invocations log1 + close_invocations log2.
Proof. unfold close_invocations. by rewrite List.filter_app, length_app. Qed.

Lemma close_invocations_closes (ps : list Protocol) :
  close_invocations (EvClose <$> ps) = length ps.
Proof.
  unfold close_invocations. induction ps as [|p ps IH]; [done|].
  cbn. by f_equal.
Qed.

Lemma close_invocations_connects (ps : list Protocol) :
  close_invocations (EvConnect <$> ps) = 0.
Proof. unfold close_invocations. by induction ps as [|p ps IH]. Qed.

Lemma for_each_invoke_all_return (ev : Protocol -> event)
    (sel : SetupData World -> Callable World) handlers (w : World) log :
  all_return sel handlers w ->
  for_each (fun h => invoke (ev h.1) (sel h.2)) handlers (w, log)
  = ((world_after sel handlers w, log ++ (ev <$> keys handlers)), Ok tt).
Proof.
  revert w log. induction handlers as [|h rest IH]; intros w log.
  - intros _. simpl. by rewrite app_nil_r.
  - intros [Hh Hrest]. rewrite for_each_cons. unfold invoke at 1.
    unfold world_after. cbn [foldl]. fold (world_after sel rest).
    destruct (sel h.2 w) as [w1 r]. simpl in Hh, Hrest. subst r.
    rewrite IH by done. unfold keys. cbn. by rewrite <- app_assoc.
Qed.

Lemma world_after_app (sel : SetupData World -> Callable World) pre post (w : World) :
  world_after sel (pre ++ post) w = world_after sel post (world_after sel pre w).
Proof. unfold world_after. apply foldl_app. Qed.

Lemma for_each_invoke_first_failure (ev : Protocol -> event)
    (sel : SetupData World -> Callable World) pre h post (w : World) log e :
  all_return sel pre w ->
  (sel h.2 (world_after sel pre w)).2 = Raise e ->
  for_each (fun h => invoke (ev h.1) (sel h.2)) (pre ++ h :: post) (w, log)
  = (((sel h.2 (world_after sel pre w)).1, log ++ (ev <$> keys pre) ++ [ev h.1]),
     Raise e).
Proof.
  intros Hpre Hfail. rewrite for_each_app, for_each_invoke_all_return by done.
  rewrite for_each_cons. unfold invoke at 1.
  destruct (sel h.2 (world_after sel pre w)) as [w1 r]. simpl in Hfail. subst r.
  by rewrite <- app_assoc.
Qed.

(** Either all routines return normally, or there is a first one that
    raises. *)
Lemma all_return_or_first_failure
    (sel : SetupData World -> Callable World) handlers (w : World) :
  all_return sel handlers w \/
  exists pre h post e,
    handlers = pre ++ h :: post /\ all_return sel pre w /\
    (sel h.2 (world_after sel pre w)).2 = Raise e.
Proof.
  revert w. induction handlers as [|h rest IH]; intros w; [by left|].
  destruct (sel h.2 w) as [w1 [[]|e]] eqn:Hh.
  - destruct (IH w1) as [Hall|(pre & h' & post & e & -> & Hpre & Hfail)].
    + left. simpl. by rewrite Hh.
    + right. exists (h :: pre), h', post, e. split; [done|]. split.
      * simpl. by rewrite Hh.
      * unfold world_after in *. cbn [foldl]. by rewrite Hh.
  - right. exists [], h, rest, e. split; [done|]. split; [done|].
    unfold world_after. simpl. by rewrite Hh.
Qed.

End HandlerLoops.

(** ** [FacadeAppleTV.connect] and [FacadeAppleTV.close] *)

Section Lifecycle.
Context {World Service : Type}.
Implicit Types self : FacadeAppleTV World Service.
Implicit Types log : list event.

Lemma add_protocol_handlers protocol (setup_data : SetupData World) self :
  _protocol_handlers (add_protocol protocol setup_data self).1
  = dict_set protocol setup_data (_protocol_handlers self).
Proof. unfold add_protocol. by destruct (add_mapping _ _ _). Qed.


(** C4: the protocol table keeps the protocols in the order they were first
    added, and [connect] invokes the connect routines in the order of the
    table, one after the other.  When every connect routine returns normally,
    [connect] returns normally, having invoked all of them, and leaves the
    world they leave.  When a connect routine raises after the ones before it
    returned normally, [connect] raises the same exception: the routines
    after it are not invoked, and the log and the world are as the failing
    routine left them, so no close routine ran.  One of the two is always
    the case. *)
Theorem connect_in_registration_order self (w : World) log :
  (forall protocol setup_data,
     keys (_protocol_handlers (add_protocol protocol setup_data self).1)
     = if decide (protocol ∈ keys (_protocol_handlers self))
       then keys (_protocol_handlers self)
       else keys (_protocol_handlers self) ++ [protocol]) /\
  match connect self (w, log) with
  | ((w', log'), Ok _) =>
      log' = log ++ (EvConnect <$> keys (_protocol_handlers self))
  | ((w', log'), Raise e) =>
      exists pre p protocol_connect protocol_close features post w1,
        _protocol_handlers self
          = pre ++ (p, (protocol_connect, protocol_close, features)) :: post /\
        connect_handlers pre (w, log)
          = ((w1, log ++ (EvConnect <$> keys pre)), Ok tt) /\
        protocol_connect w1 = (w', Raise e) /\
        log' = log ++ (EvConnect <$> keys pre) ++ [EvConnect p]
  end /\
  (all_return connect_of (_protocol_handlers self) w ->
   connect self (w, log)
   = ((world_after connect_of (_protocol_handlers self) w,
       log ++ (EvConnect <$> keys (_protocol_handlers self))), Ok tt)) /\
  (forall pre p protocol_connect protocol_close features post e,
     _protocol_handlers self
       = pre ++ (p, (protocol_connect, protocol_close, features)) :: post ->
     all_return connect_of pre w ->
     (protocol_connect (world_after connect_of pre w)).2 = Raise e ->
     connect self (w, log)
     = (((protocol_connect (world_after connect_of pre w)).1,
         log ++ (EvConnect <$> keys pre) ++ [EvConnect p]), Raise e)) /\
  (all_return connect_of (_protocol_handlers self) w \/
   exists pre p protocol_connect protocol_close features post e,
     _protocol_handlers self
       = pre ++ (p, (protocol_connect, protocol_close, features)) :: post /\
     all_return connect_of pre w /\
     (protocol_connect (world_after connect_of pre w)).2 = Raise e).
Proof.
  split; [|split; [|split; [|split]]].
  - intros protocol setup_data. rewrite add_protocol_handlers. apply keys_dict_set.
  - unfold connect. rewrite connect_handlers_invoke.
    pose proof (for_each_invoke_spec EvConnect
                  (fun sd => sd.1.1) (_protocol_handlers self) w log) as Hspec.
    simpl in Hspec.
    destruct (for_each _ _ _) as [[w' log'] [[]|e]]; [done|].
    destruct Hspec as (pre & [p [[c cl] fs]] & post & w1 & Hsplit & Hpre & Hfail & ->).
    exists pre, p, c, cl, fs, post, w1.
    by rewrite connect_handlers_invoke.
  - intros Hall. unfold connect. rewrite connect_handlers_invoke.
    exact (for_each_invoke_all_return EvConnect connect_of _ w log Hall).
  - intros pre p c cl fs post e Hsplit Hpre Hfail.
    unfold connect. rewrite connect_handlers_invoke, Hsplit.
    exact (for_each_invoke_first_failure EvConnect connect_of pre (p, (c, cl, fs))
             post w log e Hpre Hfail).
  - destruct (all_return_or_first_failure connect_of (_protocol_handlers self) w)
      as [Hall|(pre & [p [[c cl] fs]] & post & e & Hsplit & Hpre & Hfail)];
      [by left|right].
    by exists pre, p, c, cl, fs, post, e.
Qed.

(** C5, as the code has it: [close] first schedules the close of the session
    manager, and raises what the scheduling raises without invoking a close
    routine.  Otherwise it invokes the close routines in the order of the
    table.  When every close routine returns normally, [close] returns
    normally and every one was invoked, once per registered protocol.  When
    a close routine raises after the ones before it returned normally,
    [close] raises the same exception and the close routines after it are
    not invoked.  One of the two is always the case. *)
Theorem close_stops_at_first_failure self (w : World) log :
  (forall e,
     (_session_manager self w).2 = Raise e ->
     close self (w, log)
     = (((_session_manager self w).1, log ++ [EvSessionClose]), Raise e)) /\
  ((_session_manager self w).2 = Ok tt ->
   all_return close_of (_protocol_handlers self) (_session_manager self w).1 ->
   close self (w, log)
   = ((world_after close_of (_protocol_handlers self) (_session_manager self w).1,
       log ++ EvSessionClose :: (EvClose <$> keys (_protocol_handlers self))),
      Ok tt) /\
   close_invocations (close self (w, log)).1.2
   = close_invocations log + length (_protocol_handlers self)) /\
  ((_session_manager self w).2 = Ok tt ->
   forall pre p protocol_connect protocol_close features post e,
     _protocol_handlers self
       = pre ++ (p, (protocol_connect, protocol_close, features)) :: post ->
     all_return close_of pre (_session_manager self w).1 ->
     (protocol_close (world_after close_of pre (_session_manager self w).1)).2
       = Raise e ->
     close self (w, log)
     = (((protocol_close (world_after close_of pre (_session_manager self w).1)).1,
         log ++ EvSessionClose :: (EvClose <$> keys pre) ++ [EvClose p]), Raise e) /\
     close_invocations (close self (w, log)).1.2
     = close_invocations log + length pre + 1) /\
  (all_return close_of (_protocol_handlers self) (_session_manager self w).1 \/
   exists pre p protocol_connect protocol_close features post e,
     _protocol_handlers self
       = pre ++ (p, (protocol_connect, protocol_close, features)) :: post /\
     all_return close_of pre (_session_manager self w).1 /\
     (protocol_close (world_after close_of pre (_session_manager self w).1)).2
       = Raise e).
Proof.
  assert (forall st, close self st
            = match invoke EvSessionClose (_session_manager self) st with
              | (st', Ok _) =>
                  for_each (fun h => invoke (EvClose h.1) (close_of h.2))
                    (_protocol_handlers self) st'
              | (st', Raise e) => (st', Raise e)
              end) as Hclose.
  { intros st. unfold close, bind, schedule_session_close.
    destruct (invoke _ _ st) as [st' [[]|e]]; [|done].
    apply close_handlers_invoke. }
  split; [|split; [|split]].
  - intros e Hfail. rewrite Hclose. unfold invoke.
    destruct (_session_manager self w) as [w0 r]. simpl in Hfail. by subst r.
  - intros Hok Hall.
    assert (close self (w, log)
            = ((world_after close_of (_protocol_handlers self)
                  (_session_manager self w).1,
                log ++ EvSessionClose :: (EvClose <$> keys (_protocol_handlers self))),
               Ok tt)) as Heq.
    { rewrite Hclose. unfold invoke at 1.
      destruct (_session_manager self w) as [w0 r]. simpl in Hok, Hall. subst r.
      rewrite (for_each_invoke_all_return EvClose close_of _ w0 _ Hall).
      by rewrite <- app_assoc. }
    split; [done|]. rewrite Heq. cbn [fst snd].
    rewrite close_invocations_app.
    change (EvSessionClose :: (EvClose <$> keys (_protocol_handlers self)))
      with ([EvSessionClose] ++ (EvClose <$> keys (_protocol_handlers self))).
    rewrite close_invocations_app, close_invocations_closes.
    unfold keys. rewrite length_fmap. cbn. lia.
  - intros Hok pre p c cl fs post e Hsplit Hpre Hfail.
    assert (close self (w, log)
            = (((cl (world_after close_of pre (_session_manager self w).1)).1,
                log ++ EvSessionClose :: (EvClose <$> keys pre) ++ [EvClose p]),
               Raise e)) as Heq.
    { rewrite Hclose. unfold invoke at 1.
      destruct (_session_manager self w) as [w0 r]. simpl in Hok, Hpre, Hfail. subst r.
      rewrite Hsplit.
      rewrite (for_each_invoke_first_failure EvClose close_of pre (p, (c, cl, fs))
                 post w0 _ e Hpre Hfail).
      by rewrite <- !app_assoc. }
    split; [done|]. rewrite Heq. cbn [fst snd].
    rewrite close_invocations_app.
    change (EvSessionClose :: (EvClose <$> keys pre) ++ [EvClose p])
      with ([EvSessionClose] ++ (EvClose <$> keys pre) ++ [EvClose p]).
    rewrite !close_invocations_app, close_invocations_closes.
    unfold keys. rewrite length_fmap. cbn.
    rewrite Nat.add_assoc. f_equal.
  - destruct (all_return_or_first_failure close_of (_protocol_handlers self)
                (_session_manager self w).1)
      as [Hall|(pre & [p [[c cl] fs]] & post & e & Hsplit & Hpre & Hfail)];
      [by left|right].
    by exists pre, p, c, cl, fs, post, e.
Qed.

End Lifecycle.

Example connect_three_protocols :
  keys (_protocol_handlers three_protocols) = [AirPlay; MRP; DMAP] /\
  connect three_protocols (0, [])
  = ((1, [EvConnect AirPlay; EvConnect MRP]), Raise (BackendError 1)).
Proof. split; reflexivity. Qed.

Example close_without_event_loop :
  close (add_protocol MRP (ok_routine, ok_routine, [])
           (new_FacadeAppleTV no_services no_event_loop)).1 (0, [])
  = ((0, [EvSessionClose]), Raise (RuntimeError "There is no current event loop")).
Proof. reflexivity. Qed.

(** C5, counterexample: with three registered protocols of which the first
    close routine raises, [close] raises after one invocation of a close
    routine; the other two close routines are not invoked. *)
Lemma close_skips_after_raise :
  close three_protocols (0, [])
  = ((0, [EvSessionClose; EvClose AirPlay]), Raise (BackendError 1)) /\
  close_invocations (close three_protocols (0, [])).1.2
  <> length (_protocol_handlers three_protocols).
Proof. split; [reflexivity|]. vm_compute. discriminate. Qed.

(** ** [FacadeAppleTV.add_protocol] for a protocol that is in the table *)







(** ** [FacadeAppleTV.service] *)

Section Service.
Context {World Service : Type}.
Implicit Types self : FacadeAppleTV World Service.
Implicit Types config : AppleTVConf Service.

Lemma first_service_found config pre p post s :
  (forall q, q ∈ pre -> get_service config q = None) ->
  get_service config p = Some s ->
  first_service config (pre ++ p :: post) = Ok s.
Proof.
  intros Hpre Hp. induction pre as [|q pre IH]; simpl.
  - by rewrite Hp.
  - rewrite (Hpre q) by left. apply IH. intros q' Hq'. apply Hpre. by right.
Qed.

Lemma first_service_Ok config priorities s :
  first_service config priorities = Ok s ->
  exists pre p post,
    priorities = pre ++ p :: post /\
    (forall q, q ∈ pre -> get_service config q = None) /\
    get_service config p = Some s.
Proof.
  induction priorities as [|q rest IH]; simpl; [done|].
  destruct (get_service config q) as [s'|] eqn:Hq.
  - intros [= ->]. exists [], q, rest. split; [done|]. split; [|done].
    by intros q' ?%not_elem_of_nil.
  - intros (pre & p & post & -> & Hpre & Hp)%IH.
    exists (q :: pre), p, post. split; [done|]. split; [|done].
    intros q' [->|Hq']%elem_of_cons; [done|by apply Hpre].
Qed.

Lemma first_service_Raise config priorities e :
  first_service config priorities = Raise e <->
  e = RuntimeError "no service (bug)" /\
  forall p, p ∈ priorities -> get_service config p = None.
Proof.
  induction priorities as [|q rest IH]; simpl.
  - split.
    + intros [= <-]. split; [done|]. by intros p ?%not_elem_of_nil.
    + by intros [-> _].
  - destruct (get_service config q) as [s'|] eqn:Hq.
    + split; [done|]. intros [_ Hnone]. specialize (Hnone q). rewrite Hq in Hnone.
      discriminate Hnone. left.
    + rewrite IH. split; intros [-> Hnone]; (split; [done|]).
      * intros p [->|Hp]%elem_of_cons; [done|by apply Hnone].
      * intros p Hp. apply Hnone. by right.
Qed.

(** C7, as the code has it: [service] walks the priority list in order and
    returns the first service the configuration holds for a protocol of the
    list.  It returns one exactly when the configuration holds a service for
    some protocol of the list, whatever protocols were added to the facade;
    otherwise it raises [RuntimeError("no service (bug)")], and it raises
    nothing else. *)
Theorem service_first_configured_by_priority self :
  (forall s,
     service self = Ok s <->
     exists pre p post,
       DEFAULT_PRIORITIES = pre ++ p :: post /\
       (forall q, q ∈ pre -> get_service (_config self) q = None) /\
       get_service (_config self) p = Some s) /\
  ((exists p, p ∈ DEFAULT_PRIORITIES /\ is_Some (get_service (_config self) p)) <->
   exists s, service self = Ok s) /\
  (forall e,
     service self = Raise e <->
     e = RuntimeError "no service (bug)" /\
     forall p, p ∈ DEFAULT_PRIORITIES -> get_service (_config self) p = None).
Proof.
  unfold service. split; [|split].
  - intros s. split; [apply first_service_Ok|].
    intros (pre & p & post & -> & Hpre & Hp). by apply first_service_found.
  - split.
    + intros (p & Hp & s & Hs).
      destruct (first_service _ _) as [s'|e] eqn:Hrun; [by exists s'|].
      apply first_service_Raise in Hrun as [_ Hnone].
      rewrite (Hnone p Hp) in Hs. discriminate Hs.
    + intros [s (pre & p & post & Hsplit & _ & Hp)%first_service_Ok].
      exists p. split; [|by exists s].
      rewrite Hsplit. apply elem_of_app. right. left.
  - intros e. apply first_service_Raise.
Qed.

End Service.

(** C7, counterexample: the device offers RAOP, which is not on the priority
    list, and RAOP was added to the facade; [service] raises although a
    protocol is registered and its service is configured.  It also raises for
    a facade with three protocols added whose configuration holds no
    service. *)
Lemma service_raises_with_registered_protocol :
  keys (_protocol_handlers raop_device) = [RAOP] /\
  get_service (_config raop_device) RAOP = Some 7 /\
  service raop_device = Raise (RuntimeError "no service (bug)") /\
  keys (_protocol_handlers three_protocols) = [AirPlay; MRP; DMAP] /\
  service three_protocols = Raise (RuntimeError "no service (bug)").
Proof. repeat split. Qed.

(** ** [FacadePower.powerstate_update] *)

Section PowerForwarding.
Context {PowerState World : Type}.
Implicit Types self : FacadePower PowerState World.
Implicit Types updates received : list (PowerState * PowerState).

Lemma notify_all_cons self u updates st :
  notify_all self (u :: updates) st
  = notify_all self updates (powerstate_update self u.1 u.2 st).1.
Proof. reflexivity. Qed.

(** C8: one incoming update makes one call of the listener, with the same
    two states; after any sequence of incoming updates the listener has
    received exactly these updates, in their order, and the world is what the
    listener's handler makes of them. *)
Theorem powerstate_update_forwards_each_once self updates (w : World) received :
  (forall old_state new_state,
     powerstate_update self old_state new_state (w, received)
     = ((listener_powerstate_update (listener self) old_state new_state w).1,
        received ++ [(old_state, new_state)],
        (listener_powerstate_update (listener self) old_state new_state w).2)) /\
  (notify_all self updates (w, received)).2 = received ++ updates /\
  (notify_all self updates (w, received)).1
  = foldl (fun w u => (listener_powerstate_update (listener self) u.1 u.2 w).1)
      w updates.
Proof.
  split.
  - intros old_state new_state. unfold powerstate_update.
    by destruct (listener_powerstate_update _ _ _ _).
  - revert w received. induction updates as [|[old_state new_state] updates IH];
      intros w received.
    + simpl. by rewrite app_nil_r.
    + rewrite notify_all_cons. unfold powerstate_update at 1 2. cbn [fst snd foldl].
      destruct (listener_powerstate_update _ _ _ _) as [w' r]. cbn [fst snd].
      destruct (IH w' (received ++ [(old_state, new_state)])) as [Hrec Hw].
      split; [by rewrite Hrec, <- app_assoc|done].
Qed.

End PowerForwarding.

Example powerstate_update_two_protocols :
  let counting := {| listener := {| listener_powerstate_update :=
                       fun (_ _ : bool) (n : nat) => (S n, Ok tt) |} |} in
  notify_all counting [(false, true); (true, false)] (0, [])
  = (2, [(false, true); (true, false)]).
Proof. reflexivity. Qed.

(** ** [FacadeMetadata.artwork] *)

(** C9, as the code has it: [artwork] relays to "artwork" with the keyword
    arguments [width] and [height]; arguments that are given are forwarded
    unchanged, so both given as [None] forwards no size; an argument left out
    takes its default, [512] for [width] and [None] for [height], so a call
    with neither given forwards [width=512, height=None]. *)
Theorem artwork_forwards_with_defaults {R : Type}
    (relay : string -> list (string * pyarg) -> R) :
  (forall width height,
     artwork relay (Some width) (Some height)
     = relay "artwork"%string [("width"%string, width); ("height"%string, height)]) /\
  artwork relay (Some PyNone) (Some PyNone)
  = relay "artwork"%string [("width"%string, PyNone); ("height"%string, PyNone)] /\
  (forall width,
     artwork relay (Some width) None
     = relay "artwork"%string [("width"%string, width); ("height"%string, PyNone)]) /\
  (forall height,
     artwork relay None (Some height)
     = relay "artwork"%string [("width"%string, PyInt 512); ("height"%string, height)]) /\
  artwork relay None None
  = relay "artwork"%string [("width"%string, PyInt 512); ("height"%string, PyNone)].
Proof. repeat split. Qed.

(** C9, counterexample: with neither argument given, the relayed call does
    not carry [width=None, height=None]; it carries [width=512]. *)
Lemma artwork_default_width_is_512 :
  artwork (fun name kwargs => (name, kwargs)) None None
  <> ("artwork"%string, [("width"%string, PyNone); ("height"%string, PyNone)]).
Proof. discriminate. Qed.

(** * Further properties of the feature map *)

Lemma index_Raise_inv x l e : index x l = Raise e -> e = ValueError /\ x ∉ l.
Proof.
  revert e. induction l as [|y l IH]; intros e; simpl.
  - intros [= <-]. split; [done|apply not_elem_of_nil].
  - case_decide as Hxy; [done|].
    destruct (index x l) as [n|e'] eqn:Hi; [done|].
    intros [= <-]. destruct (IH e' eq_refl) as [-> Hnin].
    split; [done|]. by apply not_elem_of_cons.
Qed.

Lemma not_elem_of_index x l : x ∉ l -> index x l = Raise ValueError.
Proof.
  intros Hnin. destruct (index x l) as [n|e] eqn:Hi.
  - by apply index_Ok_elem_of in Hi.
  - by apply index_Raise_inv in Hi as [-> _].
Qed.

Lemma has_higher_priority_Raise p q e :
  _has_higher_priority p q = Raise e <->
  e = ValueError /\ (p ∉ DEFAULT_PRIORITIES \/ q ∉ DEFAULT_PRIORITIES).
Proof.
  unfold _has_higher_priority. split.
  - destruct (index p _) as [i|e1] eqn:Hp.
    + destruct (index q _) as [j|e2] eqn:Hq; [done|].
      intros [= <-]. apply index_Raise_inv in Hq as [-> Hq]. split; [done|right; exact Hq].
    + intros [= <-]. apply index_Raise_inv in Hp as [-> Hp]. split; [done|left; exact Hp].
  - intros [-> [Hp|Hq]].
    + by rewrite (not_elem_of_index p _ Hp).
    + rewrite (not_elem_of_index q _ Hq).
      destruct (index p _) as [i|e] eqn:Hp; [done|].
      by apply index_Raise_inv in Hp as [-> _].
Qed.

Section FeatureMapSteps.
Implicit Types fm : gmap FeatureName (Protocol * Instance).
Implicit Types f g : FeatureName.
Implicit Types p q : Protocol.
Implicit Types i j : Instance.

(** The four ways one step of the loop can go. *)
Lemma add_feature_cases p i g fm :
  (fm !! g = None /\ add_feature p i g fm = (<[g:=(p, i)]> fm, Ok tt)) \/
  (exists q j, fm !! g = Some (q, j) /\ _has_higher_priority p q = Ok true /\
               add_feature p i g fm = (<[g:=(p, i)]> fm, Ok tt)) \/
  (exists q j, fm !! g = Some (q, j) /\ _has_higher_priority p q = Ok false /\
               add_feature p i g fm = (fm, Ok tt)) \/
  (exists q j, fm !! g = Some (q, j) /\
               (p ∉ DEFAULT_PRIORITIES \/ q ∉ DEFAULT_PRIORITIES) /\
               add_feature p i g fm = (fm, Raise ValueError)).
Proof.
  unfold add_feature. destruct (fm !! g) as [[q j]|] eqn:Hg; [|by left].
  right. simpl. destruct (_has_higher_priority p q) as [[]|e] eqn:Hh.
  - left. by exists q, j.
  - right. left. by exists q, j.
  - right. right. apply has_higher_priority_Raise in Hh as [-> Hoff]. by exists q, j.
Qed.

Lemma for_each_add_feature_outcome p i features fm :
  (for_each (add_feature p i) features fm).2 = Ok tt \/
  (for_each (add_feature p i) features fm).2 = Raise ValueError.
Proof.
  revert fm. induction features as [|g rest IH]; intros fm; [by left|].
  rewrite for_each_cons.
  destruct (add_feature_cases p i g fm)
    as [[_ ->]|[(q & j & _ & _ & ->)|[(q & j & _ & _ & ->)|(q & j & _ & _ & ->)]]];
    [apply IH..|by right].
Qed.

Lemma for_each_add_feature_off_list p i features fm f q j :
  f ∈ features -> fm !! f = Some (q, j) ->
  p ∉ DEFAULT_PRIORITIES \/ q ∉ DEFAULT_PRIORITIES ->
  (for_each (add_feature p i) features fm).2 = Raise ValueError.
Proof.
  intros Hin Hf Hoff. revert fm Hf.
  induction features as [|g rest IH]; intros fm Hf; [by apply elem_of_nil in Hin|].
  rewrite for_each_cons.
  destruct (add_feature p i g fm) as [fm1 [[]|e]] eqn:Hstep.
  - destruct (decide (f = g)) as [->|Hne].
    + exfalso. unfold add_feature in Hstep. rewrite Hf in Hstep. simpl in Hstep.
      assert (_has_higher_priority p q = Raise ValueError) as Hh
        by by apply has_higher_priority_Raise.
      rewrite Hh in Hstep. discriminate Hstep.
    + apply elem_of_cons in Hin as [?|Hin]; [done|]. apply IH; [done|].
      pose proof (add_feature_other p i g fm f Hne) as Ho.
      rewrite Hstep in Ho. simpl in Ho. by rewrite Ho.
  - pose proof (for_each_add_feature_outcome p i [g] fm) as Hout.
    rewrite for_each_cons, Hstep in Hout. simpl in Hout.
    destruct Hout as [Hout|Hout]; [done|]. by rewrite Hout.
Qed.

Lemma for_each_add_feature_Raise_inv p i features fm e :
  NoDup features ->
  (for_each (add_feature p i) features fm).2 = Raise e ->
  exists f q j, f ∈ features /\ fm !! f = Some (q, j) /\
                (p ∉ DEFAULT_PRIORITIES \/ q ∉ DEFAULT_PRIORITIES).
Proof.
  intros Hnd. revert fm. induction Hnd as [|g rest Hg Hnd IH]; intros fm; [done|].
  rewrite for_each_cons.
  pose proof (add_feature_other p i g fm) as Hother.
  destruct (add_feature_cases p i g fm)
    as [[_ Hs]|[(q & j & _ & _ & Hs)|[(q & j & _ & _ & Hs)|(q & j & Hgq & Hoff & Hs)]]];
    rewrite Hs in *; simpl in *.
  4: { intros _. exists g, q, j. split; [left|done]. }
  all: intros (f & q' & j' & Hin & Hf & Hoff)%IH;
    exists f, q', j'; (split; [by right|]); split; [|done];
    rewrite <- Hf; symmetry; apply Hother; by intros ->.
Qed.

(** The features with a holder: a step adds the feature it visits, if
    anything. *)
Lemma for_each_add_feature_held p i features fm f :
  (is_Some (fm !! f) -> is_Some ((for_each (add_feature p i) features fm).1 !! f)) /\
  (is_Some ((for_each (add_feature p i) features fm).1 !! f) ->
   is_Some (fm !! f) \/ f ∈ features) /\
  ((for_each (add_feature p i) features fm).2 = Ok tt -> f ∈ features ->
   is_Some ((for_each (add_feature p i) features fm).1 !! f)).
Proof.
  revert fm. induction features as [|g rest IH]; intros fm.
  - simpl. split; [done|]. split; [by left|]. by intros _ ?%elem_of_nil.
  - rewrite for_each_cons.
    assert (forall fm1 : gmap FeatureName (Protocol * Instance),
              (is_Some (fm !! f) -> is_Some (fm1 !! f)) ->
              (is_Some (fm1 !! f) -> is_Some (fm !! f) \/ f = g) ->
              is_Some (fm1 !! g) ->
              (is_Some (fm !! f) ->
               is_Some ((for_each (add_feature p i) rest fm1).1 !! f)) /\
              (is_Some ((for_each (add_feature p i) rest fm1).1 !! f) ->
               is_Some (fm !! f) \/ f ∈ g :: rest) /\
              ((for_each (add_feature p i) rest fm1).2 = Ok tt -> f ∈ g :: rest ->
               is_Some ((for_each (add_feature p i) rest fm1).1 !! f))) as Hrest.
    { intros fm1 Hup Hdown Hg. destruct (IH fm1) as (Hkeep & Hnew & Hall).
      split; [intros Hf; by apply Hkeep, Hup|]. split.
      - intros [Hf|Hf]%Hnew; [|right; by right].
        destruct (Hdown Hf) as [Hold | ->]; [by left|right; left].
      - intros Hok [->|Hin]%elem_of_cons; [by apply Hkeep|by apply Hall]. }
    destruct (add_feature_cases p i g fm)
      as [[_ Hs]|[(q & j & _ & _ & Hs)|[(q & j & Hg & _ & Hs)|(q & j & _ & _ & Hs)]]];
      rewrite Hs; simpl.
    + apply Hrest.
      * rewrite lookup_insert. by case_decide.
      * rewrite lookup_insert. case_decide; [by right|by left].
      * by rewrite lookup_insert_eq.
    + apply Hrest.
      * rewrite lookup_insert. by case_decide.
      * rewrite lookup_insert. case_decide; [by right|by left].
      * by rewrite lookup_insert_eq.
    + apply Hrest; [done|by left|by rewrite Hg].
    + split; [done|]. split; [by left|done].
Qed.

End FeatureMapSteps.

(** X3: [add_mapping] returns normally or raises [ValueError], nothing else.
    It raises when a declared feature is held and the calling protocol or
    the holder is not on the priority list; for declared features without
    repetition that is the only way it raises. *)
Theorem add_mapping_raises_off_list
    (self : FacadeFeatures) (protocol : Protocol) (features : list FeatureName) :
  ((add_mapping protocol features self).2 = Ok tt \/
   (add_mapping protocol features self).2 = Raise ValueError) /\
  (forall i f q j,
     get self protocol = Some i -> f ∈ features ->
     _feature_map self !! f = Some (q, j) ->
     protocol ∉ DEFAULT_PRIORITIES \/ q ∉ DEFAULT_PRIORITIES ->
     (add_mapping protocol features self).2 = Raise ValueError /\
     _feature_map (add_mapping protocol features self).1 !! f = Some (q, j)) /\
  (NoDup features ->
   (add_mapping protocol features self).2 = Raise ValueError ->
   exists i f q j,
     get self protocol = Some i /\ f ∈ features /\
     _feature_map self !! f = Some (q, j) /\
     (protocol ∉ DEFAULT_PRIORITIES \/ q ∉ DEFAULT_PRIORITIES)).
Proof.
  unfold add_mapping. destruct (get self protocol) as [i|] eqn:Hget.
  - pose proof (for_each_add_feature_outcome protocol i features (_feature_map self))
      as Hout.
    pose proof (for_each_add_feature_off_list protocol i features (_feature_map self))
      as Hoff.
    pose proof (for_each_add_feature_Raise_inv protocol i features (_feature_map self))
      as Hinv.
    pose proof (for_each_add_feature_holder protocol i features (_feature_map self))
      as Hhold.
    destruct (for_each _ _ _) as [fm r]. simpl in *.
    split; [done|]. split.
    + intros i' f q j [= <-] Hin Hf Hq. split; [by eapply Hoff|].
      destruct (Hhold f q j Hf) as [Hkeep|[_ Hhigh]]; [done|].
      apply has_higher_priority_true in Hhigh as (a & b & Ha & Hb & _).
      apply index_Ok_elem_of in Ha, Hb. by destruct Hq.
    + intros Hnd Hr. destruct (Hinv ValueError Hnd Hr) as (f & q & j & ?).
      by exists i, f, q, j.
  - simpl. split; [by left|]. split; [done|]. done.
Qed.

Example add_mapping_RAOP_then_MRP :
  let self := {| _interfaces := {[RAOP := 1; MRP := 2]}; _feature_map := ∅ |} in
  add_mappings [(RAOP, [3%N]); (MRP, [4%N; 3%N; 5%N])] self
  = ({| _interfaces := {[RAOP := 1; MRP := 2]};
        _feature_map := {[3%N := (RAOP, 1); 4%N := (MRP, 2)]} |}, Raise ValueError).
Proof. vm_compute. reflexivity. Qed.

(** X4: [add_mapping] never takes a holder away and gives holders to declared
    features only; when it returns normally for a protocol with a registered
    instance, every declared feature has a holder. *)
Theorem add_mapping_held_features
    (self : FacadeFeatures) (protocol : Protocol) (features : list FeatureName)
    (f : FeatureName) :
  (is_Some (_feature_map self !! f) ->
   is_Some (_feature_map (add_mapping protocol features self).1 !! f)) /\
  (is_Some (_feature_map (add_mapping protocol features self).1 !! f) ->
   is_Some (_feature_map self !! f) \/
   (f ∈ features /\ is_Some (get self protocol))) /\
  (is_Some (get self protocol) ->
   (add_mapping protocol features self).2 = Ok tt -> f ∈ features ->
   is_Some (_feature_map (add_mapping protocol features self).1 !! f)).
Proof.
  unfold add_mapping. destruct (get self protocol) as [i|] eqn:Hget.
  - pose proof (for_each_add_feature_held protocol i features (_feature_map self) f)
      as (Hkeep & Hnew & Hall).
    destruct (for_each _ _ _) as [fm r]. simpl in *.
    split; [done|]. split; [|by intros _].
    intros [?|?]%Hnew; [by left|right]. split; [done|by eexists].
  - simpl. split; [done|]. split; [by left|]. by intros [? [=]].
Qed.

Section Settled.
Implicit Types fm : gmap FeatureName (Protocol * Instance).
Implicit Types f g : FeatureName.
Implicit Types p q : Protocol.
Implicit Types i j : Instance.

Lemma has_higher_priority_false p q :
  _has_higher_priority p q = Ok false <->
  exists a b, index p DEFAULT_PRIORITIES = Ok a /\
              index q DEFAULT_PRIORITIES = Ok b /\ b <= a.
Proof.
  unfold _has_higher_priority. split.
  - destruct (index p _) as [a|] eqn:Hp; [|done].
    destruct (index q _) as [b|] eqn:Hq; [|done].
    intros [= Hlt%bool_decide_eq_false]. exists a, b. repeat split; lia.
  - intros (a & b & -> & -> & Hle). by rewrite bool_decide_eq_false_2 by lia.
Qed.

Lemma has_higher_priority_refl_false p :
  p ∈ DEFAULT_PRIORITIES -> _has_higher_priority p p = Ok false.
Proof.
  intros [a Ha]%elem_of_index_Ok. apply has_higher_priority_false.
  exists a, a. repeat split; [done..|lia].
Qed.

(** If [p] does not outrank [q], it does not outrank what outranks [q]. *)
Lemma has_higher_priority_false_above p q q' :
  _has_higher_priority p q = Ok false ->
  _has_higher_priority q' q = Ok true ->
  _has_higher_priority p q' = Ok false.
Proof.
  rewrite !has_higher_priority_false, has_higher_priority_true.
  intros (a & b & Ha & Hb & Hle) (c & b' & Hc & Hb' & Hlt).
  assert (b = b') by congruence. exists a, c. repeat split; [done..|lia].
Qed.

(** A feature is settled for a caller when its holder is the caller with its
    instance, or a protocol the caller does not outrank. *)
Lemma add_feature_settles p i g fm fm1 :
  add_feature p i g fm = (fm1, Ok tt) ->
  exists q j, fm1 !! g = Some (q, j) /\
              ((q, j) = (p, i) \/ _has_higher_priority p q = Ok false).
Proof.
  destruct (add_feature_cases p i g fm)
    as [[_ ->]|[(q & j & _ & _ & ->)|[(q & j & Hg & Hlow & ->)|(q & j & _ & _ & ->)]]];
    intros [= <-].
  - exists p, i. rewrite lookup_insert_eq. split; [done|by left].
  - exists p, i. rewrite lookup_insert_eq. split; [done|by left].
  - exists q, j. split; [done|by right].
Qed.

Lemma for_each_add_feature_stays_settled p i features fm f q j :
  fm !! f = Some (q, j) ->
  (q, j) = (p, i) \/ _has_higher_priority p q = Ok false ->
  (for_each (add_feature p i) features fm).1 !! f = Some (q, j).
Proof.
  intros Hf Hset.
  destruct (for_each_add_feature_holder p i features fm f q j Hf)
    as [Hkeep|[Hnew Hhigh]]; [done|].
  destruct Hset as [[= -> ->]|Hlow]; [done|congruence].
Qed.

Lemma for_each_add_feature_settles p i features fm f :
  (for_each (add_feature p i) features fm).2 = Ok tt ->
  f ∈ features ->
  exists q j, (for_each (add_feature p i) features fm).1 !! f = Some (q, j) /\
              ((q, j) = (p, i) \/ _has_higher_priority p q = Ok false).
Proof.
  revert fm. induction features as [|g rest IH]; intros fm Hok Hin;
    [by apply elem_of_nil in Hin|].
  rewrite for_each_cons in *.
  destruct (add_feature p i g fm) as [fm1 [[]|e]] eqn:Hstep; [|done].
  destruct (decide (f ∈ rest)) as [Hrest|Hnot]; [by apply IH|].
  apply elem_of_cons in Hin as [->|?]; [|done].
  destruct (add_feature_settles p i g fm fm1 Hstep) as (q & j & Hg & Hset).
  exists q, j. split; [|done]. by apply for_each_add_feature_stays_settled.
Qed.

Lemma for_each_add_feature_settled_noop p i features fm :
  (forall f, f ∈ features ->
     exists q j, fm !! f = Some (q, j) /\ _has_higher_priority p q = Ok false) ->
  for_each (add_feature p i) features fm = (fm, Ok tt).
Proof.
  induction features as [|g rest IH]; intros Hall; [done|].
  rewrite for_each_cons.
  destruct (Hall g) as (q & j & Hg & Hlow); [left|].
  unfold add_feature at 1. rewrite Hg. simpl. rewrite Hlow.
  apply IH. intros f Hf. apply Hall. by right.
Qed.

End Settled.

Lemma add_mapping_declared_settled_aux
    (self self' : FacadeFeatures) (protocol : Protocol) (instance : Instance)
    (features : list FeatureName) (f : FeatureName) :
  get self protocol = Some instance ->
  add_mapping protocol features self = (self', Ok tt) ->
  f ∈ features ->
  exists q j,
    _feature_map self' !! f = Some (q, j) /\
    ((q, j) = (protocol, instance) \/ _has_higher_priority protocol q = Ok false).
Proof.
  intros Hget Hrun Hin. unfold add_mapping in Hrun. rewrite Hget in Hrun.
  pose proof (for_each_add_feature_settles protocol instance features
                (_feature_map self) f) as Hset.
  destruct (for_each _ _ _) as [fm r]. injection Hrun as <- ->. by apply Hset.
Qed.

(** X5: when [add_mapping] returns normally for a protocol with a registered
    instance, every declared feature is held by that instance or by a
    protocol that the caller does not outrank. *)
Theorem add_mapping_declared_settled
    (self self' : FacadeFeatures) (protocol : Protocol) (instance : Instance)
    (features : list FeatureName) (f : FeatureName) :
  get self protocol = Some instance ->
  add_mapping protocol features self = (self', Ok tt) ->
  f ∈ features ->
  exists q j,
    _feature_map self' !! f = Some (q, j) /\
    ((q, j) = (protocol, instance) \/ _has_higher_priority protocol q = Ok false).
Proof. apply add_mapping_declared_settled_aux. Qed.

Lemma add_mapping_declared_settled_witness :
  let self := {| _interfaces := {[DMAP := 1; MRP := 2]};
                 _feature_map := {[3%N := (MRP, 2)]} |} in
  exists q j,
    _feature_map (add_mapping DMAP [3%N; 4%N] self).1 !! 3%N = Some (q, j) /\
    ((q, j) = (DMAP, 1) \/ _has_higher_priority DMAP q = Ok false).
Proof.
  intros self.
  apply (add_mapping_declared_settled self _ DMAP 1 [3%N; 4%N] 3%N).
  - reflexivity.
  - reflexivity.
  - apply list_elem_of_In. simpl. tauto.
Defined.

(** X6: [add_mapping] is idempotent for a protocol on the priority list: after
    a call that returned normally, the same call again returns normally and
    changes nothing. *)
Theorem add_mapping_idempotent
    (self self' : FacadeFeatures) (protocol : Protocol)
    (features : list FeatureName) :
  protocol ∈ DEFAULT_PRIORITIES ->
  add_mapping protocol features self = (self', Ok tt) ->
  add_mapping protocol features self' = (self', Ok tt).
Proof.
  intros Hp Hrun. unfold add_mapping in *.
  destruct (get self protocol) as [i|] eqn:Hget.
  - pose proof (for_each_add_feature_settles protocol i features (_feature_map self))
      as Hset.
    destruct (for_each _ _ (_feature_map self)) as [fm r]. injection Hrun as <- ->.
    unfold get in *. simpl. rewrite Hget.
    rewrite for_each_add_feature_settled_noop; [done|].
    intros f Hf. destruct (Hset f eq_refl Hf) as (q & j & Hlook & [[= -> ->]|Hlow]).
    + exists protocol, i. split; [done|]. by apply has_higher_priority_refl_false.
    + by exists q, j.
  - injection Hrun as <-. by rewrite Hget.
Qed.

Lemma add_mapping_idempotent_witness :
  let self := {| _interfaces := {[DMAP := 1; MRP := 2]};
                 _feature_map := {[3%N := (MRP, 2); 5%N := (AirPlay, 9)]} |} in
  let self' := (add_mapping DMAP [3%N; 4%N; 5%N] self).1 in
  add_mapping DMAP [3%N; 4%N; 5%N] self' = (self', Ok tt).
Proof.
  intros self self'.
  apply (add_mapping_idempotent self self' DMAP).
  - apply list_elem_of_In. simpl. tauto.
  - reflexivity.
Defined.

(** ** Several protocols declaring features *)

Lemma for_each_add_feature_provenance p i features
    (fm : gmap FeatureName (Protocol * Instance)) (f : FeatureName) q j :
  (for_each (add_feature p i) features fm).1 !! f = Some (q, j) ->
  fm !! f = Some (q, j) \/ ((q, j) = (p, i) /\ f ∈ features).
Proof.
  revert fm. induction features as [|g rest IH]; intros fm; [by left|].
  rewrite for_each_cons.
  pose proof (add_feature_other p i g fm f) as Hother.
  destruct (add_feature_cases p i g fm)
    as [[_ Hs]|[(q' & j' & _ & _ & Hs)|[(q' & j' & _ & _ & Hs)|(q' & j' & _ & _ & Hs)]]];
    rewrite Hs in *; simpl in *; [| |by intros [?|[? ?]]%IH; [left|right; split; [|right]]|by left].
  all: intros [Hf|[? ?]]%IH; [|right; split; [done|by right]];
    destruct (decide (f = g)) as [->|Hne];
    [rewrite lookup_insert_eq in Hf; right; split; [by injection Hf as <- <-|left]
    |left; by rewrite <- Hother].
Qed.

Lemma add_mapping_provenance self protocol features (f : FeatureName) q j :
  _feature_map (add_mapping protocol features self).1 !! f = Some (q, j) ->
  _feature_map self !! f = Some (q, j) \/
  (q = protocol /\ get self protocol = Some j /\ f ∈ features).
Proof.
  destruct (get self protocol) as [i|] eqn:Hget.
  - rewrite (add_mapping_feature_map _ _ _ i Hget).
    intros [?|[[= -> ->] ?]]%for_each_add_feature_provenance; [by left|by right].
  - unfold add_mapping. rewrite Hget. by left.
Qed.

Lemma add_mapping_keeps_not_outranked self protocol features (f : FeatureName) p :
  (exists q j, _feature_map self !! f = Some (q, j) /\
               _has_higher_priority p q = Ok false) ->
  exists q j, _feature_map (add_mapping protocol features self).1 !! f = Some (q, j) /\
              _has_higher_priority p q = Ok false.
Proof.
  intros (q & j & Hf & Hlow).
  destruct (add_mapping_holder self protocol features f q j Hf)
    as [Hkeep|(i & _ & Hnew & Hhigh)].
  - by exists q, j.
  - exists protocol, i. split; [done|]. by eapply has_higher_priority_false_above.
Qed.

Lemma add_mappings_cons c calls self :
  add_mappings (c :: calls) self =
  match add_mapping c.1 c.2 self with
  | (self1, Ok _) => add_mappings calls self1
  | (self1, Raise e) => (self1, Raise e)
  end.
Proof. reflexivity. Qed.

Lemma add_mappings_interfaces calls self :
  _interfaces (add_mappings calls self).1 = _interfaces self.
Proof.
  revert self. induction calls as [|c calls IH]; intros self; [done|].
  rewrite add_mappings_cons.
  pose proof (add_mapping_interfaces c.1 c.2 self) as Hstep.
  destruct (add_mapping c.1 c.2 self) as [self1 [[]|e]]; simpl in *; [|done].
  by rewrite IH.
Qed.

Lemma add_mappings_keeps_not_outranked calls self (f : FeatureName) p :
  (exists q j, _feature_map self !! f = Some (q, j) /\
               _has_higher_priority p q = Ok false) ->
  exists q j, _feature_map (add_mappings calls self).1 !! f = Some (q, j) /\
              _has_higher_priority p q = Ok false.
Proof.
  revert self. induction calls as [|c calls IH]; intros self Hf; [done|].
  rewrite add_mappings_cons.
  pose proof (add_mapping_keeps_not_outranked self c.1 c.2 f p Hf) as Hstep.
  destruct (add_mapping c.1 c.2 self) as [self1 [[]|e]]; simpl in *; [|done].
  by apply IH.
Qed.

(** X2: after a sequence of [add_mapping] calls that all returned normally,
    no declarer on the priority list outranks the holder of a feature it
    declared, and every holder is a holder from before the calls or a
    declarer of the feature with its registered instance: among any number
    of declarers the one of highest priority holds the feature. *)
Theorem add_mappings_highest_declarer_holds
    (calls : list (Protocol * list FeatureName)) (self self' : FacadeFeatures)
    (f : FeatureName) :
  add_mappings calls self = (self', Ok tt) ->
  (forall protocol features instance,
     (protocol, features) ∈ calls -> f ∈ features ->
     get self protocol = Some instance -> protocol ∈ DEFAULT_PRIORITIES ->
     exists q j, _feature_map self' !! f = Some (q, j) /\
                 _has_higher_priority protocol q = Ok false) /\
  (forall q j,
     _feature_map self' !! f = Some (q, j) ->
     _feature_map self !! f = Some (q, j) \/
     exists features, (q, features) ∈ calls /\ f ∈ features /\ get self q = Some j).
Proof.
  revert self. induction calls as [|[p fs] calls IH]; intros self Hrun.
  - injection Hrun as <-. split; [by intros ? ? ? ?%elem_of_nil|]. by left.
  - rewrite add_mappings_cons in Hrun. simpl in Hrun.
    destruct (add_mapping p fs self) as [self1 [[]|e]] eqn:Hstep; [|done].
    pose proof (add_mapping_interfaces p fs self) as Hint.
    rewrite Hstep in Hint. simpl in Hint.
    destruct (IH self1 Hrun) as [IHwin IHfrom]. split.
    + intros protocol features instance [[= -> ->]|Hin]%elem_of_cons Hf Hget Hp.
      * destruct (add_mapping_declared_settled_aux self self1 p instance fs f
                    Hget Hstep Hf) as (q & j & Hlook & Hset).
        replace self' with (add_mappings calls self1).1 by by rewrite Hrun.
        apply add_mappings_keeps_not_outranked. exists q, j. split; [done|].
        destruct Hset as [[= -> ->]|Hlow]; [|done].
        by apply has_higher_priority_refl_false.
      * eapply IHwin; [done..| |done]. unfold get in *. by rewrite Hint.
    + intros q j [Hold|(features & Hin & Hf & Hget)]%IHfrom.
      * replace self1 with (add_mapping p fs self).1 in Hold by by rewrite Hstep.
        apply add_mapping_provenance in Hold as [?|(-> & Hget & Hf)]; [by left|].
        right. exists fs. split; [left|done].
      * right. exists features. split; [by right|]. split; [done|].
        unfold get in *. by rewrite <- Hint.
Qed.

(** ** The order of [add_mapping] calls *)

Lemma elem_of_DEFAULT_PRIORITIES p :
  p ∈ DEFAULT_PRIORITIES -> p = MRP \/ p = DMAP \/ p = Companion \/ p = AirPlay.
Proof.
  intros Hp. apply list_elem_of_In in Hp. simpl in Hp.
  destruct Hp as [H|[H|[H|[H|[]]]]]; subst p; tauto.
Qed.

(** Two declarers make the same of an entry in either order. *)
Lemma claim_comm p1 i1 p2 i2 (entry : option (Protocol * Instance)) :
  p1 ∈ DEFAULT_PRIORITIES -> p2 ∈ DEFAULT_PRIORITIES ->
  (p1 = p2 -> i1 = i2) ->
  (forall q j, entry = Some (q, j) -> q ∈ DEFAULT_PRIORITIES) ->
  claim p1 i1 (claim p2 i2 entry) = claim p2 i2 (claim p1 i1 entry).
Proof.
  intros Hp1%elem_of_DEFAULT_PRIORITIES Hp2%elem_of_DEFAULT_PRIORITIES Heq Hentry.
  destruct entry as [[q j]|].
  - pose proof (Hentry q j eq_refl) as Hq%elem_of_DEFAULT_PRIORITIES.
    destruct Hp1 as [-> | [-> | [-> | ->]]], Hp2 as [-> | [-> | [-> | ->]]],
             Hq as [-> | [-> | [-> | ->]]];
      try (rewrite (Heq eq_refl)); reflexivity.
  - destruct Hp1 as [-> | [-> | [-> | ->]]], Hp2 as [-> | [-> | [-> | ->]]];
      try (rewrite (Heq eq_refl)); reflexivity.
Qed.

Lemma FacadeFeatures_eq (s1 s2 : FacadeFeatures) :
  _interfaces s1 = _interfaces s2 ->
  (forall f, _feature_map s1 !! f = _feature_map s2 !! f) ->
  s1 = s2.
Proof.
  destruct s1 as [r1 m1], s2 as [r2 m2]. simpl. intros -> Hm.
  f_equal. by apply map_eq.
Qed.

Lemma add_mapping_returns protocol features self :
  (is_Some (get self protocol) -> protocol ∈ DEFAULT_PRIORITIES) ->
  holders_prioritised (_feature_map self) ->
  exists self',
    add_mapping protocol features self = (self', Ok tt) /\
    _interfaces self' = _interfaces self /\
    holders_prioritised (_feature_map self') /\
    forall f, _feature_map self' !! f =
              match get self protocol with
              | Some instance =>
                  if decide (f ∈ features)
                  then claim protocol instance (_feature_map self !! f)
                  else _feature_map self !! f
              | None => _feature_map self !! f
              end.
Proof.
  intros Hp Hwf. destruct (get self protocol) as [i|] eqn:Hget.
  - apply add_mapping_prioritised; [done|by apply Hp|done].
  - exists self. unfold add_mapping. by rewrite Hget.
Qed.

Lemma add_mapping_swap p1 fs1 p2 fs2 self :
  (is_Some (get self p1) -> p1 ∈ DEFAULT_PRIORITIES) ->
  (is_Some (get self p2) -> p2 ∈ DEFAULT_PRIORITIES) ->
  holders_prioritised (_feature_map self) ->
  (add_mapping p1 fs1 ;;; add_mapping p2 fs2) self
  = (add_mapping p2 fs2 ;;; add_mapping p1 fs1) self.
Proof.
  intros Hp1 Hp2 Hwf.
  destruct (add_mapping_returns p1 fs1 self Hp1 Hwf) as (s1 & Hrun1 & Hi1 & Hwf1 & Hl1).
  destruct (add_mapping_returns p2 fs2 self Hp2 Hwf) as (s2 & Hrun2 & Hi2 & Hwf2 & Hl2).
  assert (get s1 p2 = get self p2) as Hg12 by (unfold get; by rewrite Hi1).
  assert (get s2 p1 = get self p1) as Hg21 by (unfold get; by rewrite Hi2).
  destruct (add_mapping_returns p2 fs2 s1) as (s12 & Hrun12 & Hi12 & _ & Hl12);
    [by rewrite Hg12|done|].
  destruct (add_mapping_returns p1 fs1 s2) as (s21 & Hrun21 & Hi21 & _ & Hl21);
    [by rewrite Hg21|done|].
  unfold bind. rewrite Hrun1, Hrun12, Hrun2, Hrun21. f_equal.
  apply FacadeFeatures_eq; [congruence|].
  intros f. rewrite Hl12, Hl21, Hl1, Hl2, Hg12, Hg21.
  destruct (get self p1) as [i1|] eqn:Hget1, (get self p2) as [i2|] eqn:Hget2;
    try done.
  destruct (decide (f ∈ fs1)), (decide (f ∈ fs2)); try done.
  symmetry. apply claim_comm.
  - by apply Hp1.
  - by apply Hp2.
  - intros ->. congruence.
  - intros q j Hf. by eapply Hwf.
Qed.

Lemma add_mappings_returns calls self :
  callers_prioritised self calls ->
  holders_prioritised (_feature_map self) ->
  exists self',
    add_mappings calls self = (self', Ok tt) /\
    _interfaces self' = _interfaces self /\
    holders_prioritised (_feature_map self').
Proof.
  unfold callers_prioritised. revert self.
  induction calls as [|c calls IH]; intros self Hcalls Hwf; [by exists self|].
  apply Forall_cons in Hcalls as [Hc Hcalls].
  destruct (add_mapping_returns c.1 c.2 self Hc Hwf) as (s1 & Hrun & Hi & Hwf1 & _).
  destruct (IH s1) as (s' & Hrest & Hi' & Hwf'); [|done|].
  - eapply Forall_impl; [done|]. intros c' Hc'. unfold get in *. by rewrite Hi.
  - exists s'. rewrite add_mappings_cons, Hrun. split; [done|]. split; [congruence|done].
Qed.

(** X1: the order of the [add_mapping] calls does not matter.  From a feature
    map whose holders are on the priority list, and for callers that are on
    the priority list or have no instance, a sequence of calls and any
    reordering of it both return normally and leave the same feature map. *)
Theorem add_mappings_order_independent
    (calls calls' : list (Protocol * list FeatureName)) (self : FacadeFeatures) :
  calls ≡ₚ calls' ->
  callers_prioritised self calls ->
  holders_prioritised (_feature_map self) ->
  exists self',
    add_mappings calls self = (self', Ok tt) /\
    add_mappings calls' self = (self', Ok tt).
Proof.
  intros Hperm. revert self.
  induction Hperm as [|c l l' Hperm IH|c1 c2 l|l l' l'' Hperm1 IH1 Hperm2 IH2];
    intros self Hcalls Hwf.
  - by exists self.
  - unfold callers_prioritised in Hcalls. apply Forall_cons in Hcalls as [Hc Hcalls].
    destruct (add_mapping_returns c.1 c.2 self Hc Hwf) as (s1 & Hrun & Hi & Hwf1 & _).
    destruct (IH s1) as (s' & Hl & Hl'); [|done|].
    + eapply Forall_impl; [done|]. intros c' Hc'. unfold get in *. by rewrite Hi.
    + exists s'. by rewrite !add_mappings_cons, Hrun.
  - unfold callers_prioritised in Hcalls.
    apply Forall_cons in Hcalls as [Hc2 Hcalls].
    apply Forall_cons in Hcalls as [Hc1 Hcalls].
    pose proof (add_mapping_swap c1.1 c1.2 c2.1 c2.2 self Hc1 Hc2 Hwf) as Hswap.
    unfold bind in Hswap.
    destruct (add_mapping_returns c2.1 c2.2 self Hc2 Hwf)
      as (s2 & Hrun2 & Hi2 & Hwf2 & _).
    destruct (add_mapping_returns c1.1 c1.2 s2) as (s21 & Hrun21 & Hi21 & Hwf21 & _);
      [unfold get in *; by rewrite Hi2|done|].
    destruct (add_mappings_returns l s21) as (s' & Hrest & _ & _); [|done|].
    { eapply Forall_impl; [done|]. intros c' Hc'. unfold get in *.
      by rewrite Hi21, Hi2. }
    exists s'. split.
    + by rewrite add_mappings_cons, Hrun2, add_mappings_cons, Hrun21.
    + rewrite Hrun2 in Hswap. cbv beta iota in Hswap. rewrite Hrun21 in Hswap.
      rewrite add_mappings_cons.
      destruct (add_mapping c1.1 c1.2 self) as [s1 [[]|e]]; [|done].
      by rewrite add_mappings_cons, Hswap.
  - destruct (IH1 self Hcalls Hwf) as (s' & Hl & Hl').
    destruct (IH2 self) as (s'' & Hl'2 & Hl''); [|done|].
    + unfold callers_prioritised in *. by rewrite <- Hperm1.
    + exists s'. split; [done|]. congruence.
Qed.

Lemma add_mappings_order_independent_witness :
  let self := {| _interfaces := {[AirPlay := 1; MRP := 2; DMAP := 3]};
                 _feature_map := ∅ |} in
  exists self',
    add_mappings [(AirPlay, [3%N; 4%N]); (MRP, [4%N]); (DMAP, [3%N; 4%N])] self
      = (self', Ok tt) /\
    add_mappings [(DMAP, [3%N; 4%N]); (AirPlay, [3%N; 4%N]); (MRP, [4%N])] self
      = (self', Ok tt).
Proof.
  intros self. apply add_mappings_order_independent.
  - exact (Permutation_app_comm [(AirPlay, [3%N; 4%N]); (MRP, [4%N])]
             [(DMAP, [3%N; 4%N])]).
  - repeat constructor; intros _; apply list_elem_of_In; simpl; tauto.
  - intros f q j Hf. discriminate Hf.
Defined.

Lemma add_mappings_highest_declarer_holds_witness :
  let self := {| _interfaces := {[AirPlay := 1; MRP := 2; DMAP := 3]};
                 _feature_map := ∅ |} in
  let self' := (add_mappings [(AirPlay, [3%N; 4%N]); (MRP, [4%N]);
                              (DMAP, [3%N; 4%N])] self).1 in
  exists q j, _feature_map self' !! 3%N = Some (q, j) /\
              _has_higher_priority AirPlay q = Ok false.
Proof.
  intros self self'.
  pose proof (add_mappings_highest_declarer_holds
                [(AirPlay, [3%N; 4%N]); (MRP, [4%N]); (DMAP, [3%N; 4%N])]
                self self' 3%N eq_refl) as [Hwin _].
  apply (Hwin AirPlay [3%N; 4%N] 1).
  - left.
  - apply list_elem_of_In. simpl. tauto.
  - reflexivity.
  - apply list_elem_of_In. simpl. tauto.
Defined.

(** * Further properties of the protocol table *)

Lemma first_occurrences_snoc (l : list Protocol) (x : Protocol) :
  first_occurrences (l ++ [x])
  = if decide (x ∈ first_occurrences l) then first_occurrences l
    else first_occurrences l ++ [x].
Proof.
  unfold first_occurrences. rewrite reverse_snoc. cbn [remove_dups].
  destruct (decide_rel elem_of x (reverse l)) as [Hin|Hnin].
  - rewrite decide_True; [done|].
    by rewrite elem_of_reverse, elem_of_remove_dups.
  - rewrite decide_False; [by rewrite reverse_cons|].
    by rewrite elem_of_reverse, elem_of_remove_dups.
Qed.

Lemma NoDup_first_occurrences (l : list Protocol) : NoDup (first_occurrences l).
Proof.
  unfold first_occurrences. rewrite reverse_Permutation. apply NoDup_remove_dups.
Qed.

Lemma elem_of_first_occurrences (l : list Protocol) x :
  x ∈ first_occurrences l <-> x ∈ l.
Proof.
  unfold first_occurrences.
  by rewrite elem_of_reverse, elem_of_remove_dups, elem_of_reverse.
Qed.

Lemma keys_foldl_dict_set {V} (calls : list (Protocol * V)) :
  keys (foldl (fun d c => dict_set c.1 c.2 d) [] calls) = first_occurrences calls.*1.
Proof.
  induction calls as [|c calls IH] using rev_ind; [done|].
  rewrite foldl_snoc, keys_dict_set, fmap_app. cbn [fmap list_fmap].
  by rewrite first_occurrences_snoc, IH.
Qed.

Lemma dict_get_foldl_dict_set_other {V} (p : Protocol) (calls : list (Protocol * V)) d :
  p ∉ calls.*1 ->
  dict_get p (foldl (fun d c => dict_set c.1 c.2 d) d calls) = dict_get p d.
Proof.
  revert d. induction calls as [|c calls IH]; intros d Hnin; [done|].
  rewrite fmap_cons in Hnin. apply not_elem_of_cons in Hnin as [Hne Hnin].
  simpl. rewrite IH by done. by rewrite dict_get_dict_set, decide_False.
Qed.

Section ProtocolTable.
Context {World Service : Type}.
Implicit Types self : FacadeAppleTV World Service.

Lemma add_protocol_outcome protocol (setup_data : SetupData World) self :
  (add_protocol protocol setup_data self).2
  = (add_mapping protocol setup_data.2 (_features self)).2.
Proof. unfold add_protocol. by destruct (add_mapping _ _ _). Qed.

Lemma add_protocol_config protocol (setup_data : SetupData World) self :
  _config (add_protocol protocol setup_data self).1 = _config self.
Proof. unfold add_protocol. by destruct (add_mapping _ _ _). Qed.

Lemma add_mapping_outcome protocol features (ff : FacadeFeatures) :
  (add_mapping protocol features ff).2 = Ok tt \/
  (add_mapping protocol features ff).2 = Raise ValueError.
Proof.
  unfold add_mapping. destruct (get ff protocol) as [i|]; [|by left].
  pose proof (for_each_add_feature_outcome protocol i features (_feature_map ff)).
  by destruct (for_each _ _ _).
Qed.

(** X7: [add_protocol] stores the setup record under the protocol and leaves
    the records of other protocols, the configuration and so the result of
    [service] as they are.  It raises exactly what [add_mapping] raises,
    which can only be [ValueError], and the record is stored even then. *)
Theorem add_protocol_stores_record self protocol (setup_data : SetupData World) :
  dict_get protocol (_protocol_handlers (add_protocol protocol setup_data self).1)
    = Some setup_data /\
  (forall p, p <> protocol ->
     dict_get p (_protocol_handlers (add_protocol protocol setup_data self).1)
     = dict_get p (_protocol_handlers self)) /\
  _config (add_protocol protocol setup_data self).1 = _config self /\
  service (add_protocol protocol setup_data self).1 = service self /\
  (add_protocol protocol setup_data self).2
    = (add_mapping protocol setup_data.2 (_features self)).2 /\
  ((add_protocol protocol setup_data self).2 = Ok tt \/
   (add_protocol protocol setup_data self).2 = Raise ValueError).
Proof.
  rewrite add_protocol_handlers, add_protocol_outcome.
  split; [by rewrite dict_get_dict_set, decide_True|].
  split; [intros p Hp; by rewrite dict_get_dict_set, decide_False|].
  split; [apply add_protocol_config|].
  split; [unfold service; by rewrite add_protocol_config|].
  split; [done|apply add_mapping_outcome].
Qed.

Lemma add_protocols_cons c (calls : list (Protocol * SetupData World)) self :
  add_protocols (c :: calls) self =
  match add_protocol c.1 c.2 self with
  | (self1, Ok _) => add_protocols calls self1
  | (self1, Raise e) => (self1, Raise e)
  end.
Proof. reflexivity. Qed.

Lemma add_protocols_handlers (calls : list (Protocol * SetupData World)) self self' :
  add_protocols calls self = (self', Ok tt) ->
  _protocol_handlers self'
  = foldl (fun d c => dict_set c.1 c.2 d) (_protocol_handlers self) calls.
Proof.
  revert self. induction calls as [|c calls IH]; intros self Hrun.
  - by injection Hrun as <-.
  - rewrite add_protocols_cons in Hrun.
    pose proof (add_protocol_handlers c.1 c.2 self) as Hstep.
    destruct (add_protocol c.1 c.2 self) as [self1 [[]|e]]; [|done].
    simpl in *. rewrite (IH self1 Hrun). by rewrite Hstep.
Qed.

(** X8: after protocols were added to a facade with an empty table, the table
    lists every added protocol once, in the order of first addition, and
    holds for each protocol the record of its latest addition. *)
Theorem add_protocols_table (calls : list (Protocol * SetupData World)) self self' :
  _protocol_handlers self = [] ->
  add_protocols calls self = (self', Ok tt) ->
  keys (_protocol_handlers self') = first_occurrences calls.*1 /\
  NoDup (keys (_protocol_handlers self')) /\
  (forall p, p ∈ keys (_protocol_handlers self') <-> p ∈ calls.*1) /\
  (forall pre p setup_data post,
     calls = pre ++ (p, setup_data) :: post -> p ∉ post.*1 ->
     dict_get p (_protocol_handlers self') = Some setup_data).
Proof.
  intros Hempty Hrun. apply add_protocols_handlers in Hrun. rewrite Hempty in Hrun.
  rewrite Hrun, keys_foldl_dict_set.
  split; [done|]. split; [apply NoDup_first_occurrences|].
  split; [intros p; apply elem_of_first_occurrences|].
  intros pre p setup_data post -> Hnin.
  rewrite foldl_app. simpl.
  rewrite dict_get_foldl_dict_set_other by done.
  by rewrite dict_get_dict_set, decide_True.
Qed.

End ProtocolTable.

Lemma add_protocols_table_witness :
  let calls := [(AirPlay, (ok_routine, ok_routine, [])); (MRP, (ok_routine, ok_routine, []));
                (AirPlay, (failing_routine, ok_routine, [3%N]))] in
  let self' := (add_protocols calls (new_FacadeAppleTV no_services scheduled)).1 in
  keys (_protocol_handlers self') = [AirPlay; MRP] /\
  dict_get AirPlay (_protocol_handlers self') = Some (failing_routine, ok_routine, [3%N]).
Proof.
  intros calls self'.
  pose proof (add_protocols_table calls (new_FacadeAppleTV no_services scheduled) self'
                eq_refl eq_refl) as (Hkeys & _ & _ & Hlast).
  split; [exact Hkeys|].
  apply (Hlast [(AirPlay, (ok_routine, ok_routine, [])); (MRP, (ok_routine, ok_routine, []))]
               AirPlay (failing_routine, ok_routine, [3%N]) []).
  - reflexivity.
  - apply not_elem_of_nil.
Defined.

(** * [pyatv/support/__init__.py]: [_shorten] *)

Lemma clip_nonneg (len i : Z) : (0 <= i)%Z -> clip len i = Z.min i len.
Proof. intros Hi. unfold clip. case_decide; [lia|done]. Qed.

Lemma clip_neg (len i : Z) : (i < 0)%Z -> clip len i = Z.max 0 (len + i).
Proof. intros Hi. unfold clip. case_decide; [done|lia]. Qed.

Lemma slice_to_nonneg {A} (l : list A) (k : Z) :
  (0 <= k)%Z -> slice l None (Some k) = take (Z.to_nat k) l.
Proof.
  intros Hk. unfold slice. cbn [default].
  rewrite (clip_nonneg _ 0), (clip_nonneg _ k) by lia.
  rewrite (Z.min_l 0) by lia. rewrite Z.sub_0_r. cbn [Z.to_nat drop].
  destruct (decide (length l <= Z.to_nat k)) as [Hle|Hgt].
  - rewrite Z.min_r by lia. rewrite Nat2Z.id. by rewrite !take_ge.
  - by rewrite Z.min_l by lia.
Qed.

Lemma slice_to_neg {A} (l : list A) (k : Z) :
  (k < 0)%Z ->
  slice l None (Some k) = take (Z.to_nat (Z.of_nat (length l) + k)) l.
Proof.
  intros Hk. unfold slice. cbn [default].
  rewrite (clip_nonneg _ 0), (clip_neg _ k) by lia.
  rewrite (Z.min_l 0) by lia. rewrite Z.sub_0_r. cbn [Z.to_nat drop].
  f_equal. lia.
Qed.

Lemma length_slice_to {A} (l : list A) (k : Z) :
  Z.of_nat (length (slice l None (Some k)))
  = if decide (k < 0)%Z then Z.max 0 (Z.of_nat (length l) + k)
    else Z.min k (Z.of_nat (length l)).
Proof.
  case_decide.
  - rewrite slice_to_neg, length_take by done. lia.
  - rewrite slice_to_nonneg, length_take by lia. lia.
Qed.

(** X9: for a length of at least 3, [_shorten] of a string never returns
    more than [length] characters: a string shorter than [length] is
    returned as it is, a longer one is cut to [length - 3] characters
    followed by three dots; shortening the result again changes nothing. *)
Theorem shorten_bounded (str_of_bytes : list N -> str) (text : str) (length : Z) :
  (3 <= length)%Z ->
  (Z.of_nat (List.length (_shorten str_of_bytes (inl text) length)) <= length)%Z /\
  ((Z.of_nat (List.length text) < length)%Z ->
   _shorten str_of_bytes (inl text) length = text) /\
  ((length <= Z.of_nat (List.length text))%Z ->
   _shorten str_of_bytes (inl text) length
   = take (Z.to_nat (length - 3)) text ++ str_of_string "..." /\
   Z.of_nat (List.length (_shorten str_of_bytes (inl text) length)) = length) /\
  _shorten str_of_bytes (inl (_shorten str_of_bytes (inl text) length)) length
  = _shorten str_of_bytes (inl text) length.
Proof.
  intros Hlen.
  assert ((length <= Z.of_nat (List.length text))%Z ->
          _shorten str_of_bytes (inl text) length
          = take (Z.to_nat (length - 3)) text ++ str_of_string "..." /\
          Z.of_nat (List.length (_shorten str_of_bytes (inl text) length)) = length)
    as Hcut.
  { intros Hlong. unfold _shorten. rewrite decide_False by lia.
    rewrite slice_to_nonneg by lia. split; [done|].
    rewrite length_app, length_take. simpl. lia. }
  assert ((Z.of_nat (List.length text) < length)%Z ->
          _shorten str_of_bytes (inl text) length = text) as Hshort.
  { intros Hshort. unfold _shorten. by rewrite decide_True by lia. }
  split; [|split; [done|split; [done|]]].
  - destruct (decide (Z.of_nat (List.length text) < length)%Z) as [Hs|Hl].
    + rewrite Hshort by done. lia.
    + destruct Hcut as [_ ->]; lia.
  - destruct (decide (Z.of_nat (List.length text) < length)%Z) as [Hs|Hl].
    + by rewrite !Hshort.
    + destruct Hcut as [Heq Hn]; [lia|].
      unfold _shorten at 1. rewrite decide_False by lia.
      rewrite slice_to_nonneg by lia. rewrite Heq at 1.
      rewrite take_app_le by (rewrite length_take; lia).
      rewrite take_take, Nat.min_id. by rewrite Heq.
Qed.

Lemma shorten_bounded_witness :
  let text := str_of_string "0123456789" in
  (Z.of_nat (List.length (_shorten id (inl text) 8)) <= 8)%Z /\
  _shorten id (inl text) 8 = str_of_string "01234...".
Proof.
  intros text.
  pose proof (shorten_bounded id text 8 ltac:(lia)) as (Hbound & _ & Hcut & _).
  split; [exact Hbound|]. apply Hcut. simpl. lia.
Defined.

(** X10: for a length below 3 the bound is lost: a string of at least
    [length] characters comes back with three dots after all but its last
    [3 - length] characters, which is longer than [length]. *)
Theorem shorten_small_length_exceeds
    (str_of_bytes : list N -> str) (text : str) (length : Z) :
  (length < 3)%Z ->
  (length <= Z.of_nat (List.length text))%Z ->
  _shorten str_of_bytes (inl text) length
  = take (Z.to_nat (Z.of_nat (List.length text) + length - 3)) text
    ++ str_of_string "..." /\
  Z.of_nat (List.length (_shorten str_of_bytes (inl text) length))
  = (Z.max 0 (Z.of_nat (List.length text) + length - 3) + 3)%Z /\
  (length < Z.of_nat (List.length (_shorten str_of_bytes (inl text) length)))%Z.
Proof.
  intros Hsmall Hlong. unfold _shorten. rewrite decide_False by lia.
  rewrite slice_to_neg by lia.
  replace (Z.of_nat (List.length text) + (length - 3))%Z
    with (Z.of_nat (List.length text) + length - 3)%Z by lia.
  split; [done|]. rewrite length_app, length_take. simpl. lia.
Qed.

Lemma shorten_small_length_exceeds_witness :
  _shorten id (inl (str_of_string "abcdef")) 2 = str_of_string "abcde...".
Proof.
  pose proof (shorten_small_length_exceeds id (str_of_string "abcdef") 2
                ltac:(lia) ltac:(simpl; lia)) as [Heq _].
  exact Heq.
Defined.

(** * [pyatv/scripts/atvremote.py]: [_extract_command_with_args] *)

Lemma find_lower_bound (c : char) (s : str) : (-1 <= find c s)%Z.
Proof.
  induction s as [|x s IH]; simpl; [done|].
  case_decide; [done|]. case_decide; lia.
Qed.

Lemma find_absent (c : char) (s : str) : find c s = (-1)%Z <-> c ∉ s.
Proof.
  induction s as [|x s IH]; simpl.
  - split; [intros _; apply not_elem_of_nil|done].
  - case_decide as Hx.
    + split; [done|]. intros Hnin. destruct Hnin. subst. left.
    + case_decide as Hk.
      * split; [|done]. intros _. apply not_elem_of_cons. split; [done|by apply IH].
      * pose proof (find_lower_bound c s).
        split; [lia|]. intros [_ Hnin]%not_elem_of_cons. by apply IH in Hnin.
Qed.

Lemma find_present (c : char) (s : str) :
  find c s <> (-1)%Z ->
  exists pre post,
    s = pre ++ c :: post /\ (c ∉ pre) /\ find c s = Z.of_nat (length pre).
Proof.
  induction s as [|x s IH]; simpl; [done|].
  case_decide as Hx.
  - intros _. subst x. exists [], s. split; [done|]. split; [apply not_elem_of_nil|done].
  - case_decide as Hk; [done|]. intros _.
    destruct (IH Hk) as (pre & post & -> & Hpre & Hfind).
    exists (x :: pre), post. split; [done|]. split.
    + apply not_elem_of_cons. split; [done|done].
    + rewrite Hfind, length_cons. lia.
Qed.

Lemma slice_before {A} (pre post : list A) (c : A) :
  slice (pre ++ c :: post) (Some 0%Z) (Some (Z.of_nat (length pre))) = pre.
Proof.
  unfold slice. cbn [default].
  rewrite (clip_nonneg _ 0), (clip_nonneg _ (Z.of_nat (length pre))) by lia.
  rewrite length_app, length_cons.
  rewrite (Z.min_l 0), Z.min_l by lia. rewrite Z.sub_0_r, Nat2Z.id.
  change (Z.to_nat 0) with 0. rewrite drop_0. by rewrite take_app_length.
Qed.

Lemma slice_after {A} (pre post : list A) (c : A) :
  slice (pre ++ c :: post) (Some (Z.of_nat (length pre) + 1)%Z) None = post.
Proof.
  unfold slice. cbn [default].
  rewrite length_app, length_cons.
  rewrite (clip_nonneg _ (Z.of_nat (length pre) + 1)), (clip_nonneg _ (Z.of_nat _)) by lia.
  rewrite Z.min_l, Z.min_l by lia.
  replace (Z.to_nat (Z.of_nat (length pre) + 1)) with (length pre + 1) by lia.
  rewrite <- drop_drop, drop_app_length. simpl.
  apply take_ge. lia.
Qed.

Lemma split_nonempty (sep : char) (s : str) : split sep s <> [].
Proof.
  induction s as [|x s IH]; simpl; [done|].
  case_decide; [done|]. by destruct (split sep s).
Qed.

Lemma join_split (sep : char) (s : str) : join sep (split sep s) = s.
Proof.
  induction s as [|x s IH]; [done|]. cbn [split].
  pose proof (split_nonempty sep s) as Hne.
  case_decide as Hx.
  - subst x. cbn [join]. destruct (split sep s) as [|piece rest]; [done|].
    simpl. by rewrite <- IH.
  - destruct (split sep s) as [|piece rest]; [done|].
    rewrite <- IH. by destruct rest.
Qed.

Lemma split_pieces (sep : char) (s : str) :
  Forall (fun piece => sep ∉ piece) (split sep s).
Proof.
  induction s as [|x s IH]; simpl.
  - constructor; [apply not_elem_of_nil|constructor].
  - case_decide as Hx.
    + constructor; [apply not_elem_of_nil|done].
    + destruct (split sep s) as [|piece rest]; inversion IH; subst.
      all: constructor; [|done]; apply not_elem_of_cons; split; [congruence|];
        first [assumption|apply not_elem_of_nil].
Qed.

Lemma split_count (sep : char) (s : str) :
  length (split sep s) = S (length (List.filter (fun x => bool_decide (x = sep)) s)).
Proof.
  induction s as [|x s IH]; [done|]. cbn [split List.filter].
  pose proof (split_nonempty sep s) as Hne.
  case_decide as Hx.
  - rewrite bool_decide_eq_true_2 by done. simpl. by rewrite IH.
  - rewrite bool_decide_eq_false_2 by done.
    destruct (split sep s) as [|piece rest]; [done|]. by rewrite <- IH.
Qed.

(** X12: [_typeparse] takes a value between double quotes as the string
    between them, whatever [int] would make of it; a lone double quote
    becomes the empty string. *)
Theorem typeparse_quoted (py_int : str -> option Z) (s : str) :
  _typeparse py_int (34%N :: s ++ [34%N]) = PyString s /\
  _typeparse py_int [34%N] = PyString [].
Proof.
  split.
  - unfold _typeparse. rewrite decide_True.
    + f_equal. unfold slice. cbn [default].
      rewrite (clip_nonneg _ 1), (clip_neg _ (-1)) by lia.
      rewrite length_cons, length_app, length_cons, length_nil.
      rewrite Z.min_l, Z.max_r by lia.
      replace (Z.to_nat (Z.of_nat (S (length s + 1)) + -1 - 1)) with (length s) by lia.
      change (Z.to_nat 1) with 1.
      change (drop 1 (34%N :: s ++ [34%N])) with (s ++ [34%N]).
      by rewrite take_app_length.
    + split; [done|]. by rewrite app_comm_cons, last_snoc.
  - reflexivity.
Qed.

Section ExtractCommandProperties.
Context {V : Type}.
Variable py_int : str -> option Z.
Variable plain : pyval -> V.
Variables ShuffleState RepeatState InputAction TouchAction float : pyval -> result V.

Local Abbreviation parse_args :=
  (_parse_args py_int plain ShuffleState RepeatState InputAction TouchAction float).
Local Abbreviation extract :=
  (_extract_command_with_args py_int plain ShuffleState RepeatState InputAction
     TouchAction float).

Lemma extract_with_equal_sign (command rest : str) :
  61%N ∉ command ->
  extract (command ++ 61%N :: rest)
  = match parse_args command (split 44%N rest) with
    | Return parsed => Return (command, parsed)
    | Throw e => Throw e
    end.
Proof.
  intros Hcommand. unfold _extract_command_with_args.
  destruct (find_present 61%N (command ++ 61%N :: rest)) as (pre & post & Heq & Hpre & Hk).
  { rewrite find_absent. intros Hnin. apply Hnin, elem_of_app. right. left. }
  assert (pre = command /\ post = rest) as [-> ->].
  { clear Hk. revert pre Heq Hpre. induction command as [|x command IH]; intros pre Heq Hpre.
    - destruct pre as [|y pre]; [by injection Heq as <-|].
      injection Heq as <- _. destruct Hpre. left.
    - apply not_elem_of_cons in Hcommand as [Hx Hcommand].
      destruct pre as [|y pre]; [injection Heq as Heq _; by subst|].
      injection Heq as <- Heq. apply not_elem_of_cons in Hpre as [_ Hpre].
      destruct (IH Hcommand pre Heq Hpre) as [-> ->]. done. }
  rewrite Hk. rewrite decide_False by lia.
  by rewrite slice_before, slice_after.
Qed.

(** X13: a command without an equal sign is returned whole, with no
    arguments.  Otherwise the command is the text before the first equal
    sign, and the rest is split at every comma: the pieces are at least one,
    contain no comma, and joined with commas behind the command and the
    equal sign give the input back; [_parse_args] gets the command and these
    pieces. *)
Theorem extract_command_splits (cmd : str) :
  (61%N ∉ cmd -> extract cmd = Return (cmd, [])) /\
  (61%N ∈ cmd ->
   exists command raw,
     cmd = command ++ 61%N :: join 44%N raw /\
     (61%N ∉ command) /\ raw <> [] /\
     length raw = S (length (List.filter (fun x => bool_decide (x = 44%N))
                               (join 44%N raw))) /\
     Forall (fun piece => 44%N ∉ piece) raw /\
     extract cmd = match parse_args command raw with
                   | Return parsed => Return (command, parsed)
                   | Throw e => Throw e
                   end).
Proof.
  split.
  - intros Hnin%find_absent. unfold _extract_command_with_args.
    by rewrite Hnin, decide_True.
  - intros Hin. destruct (find_present 61%N cmd) as (pre & post & -> & Hpre & _).
    { by rewrite find_absent; intros Hnin. }
    exists pre, (split 44%N post). rewrite join_split.
    split; [done|]. split; [done|]. split; [apply split_nonempty|].
    split; [apply split_count|]. split; [apply split_pieces|].
    by apply extract_with_equal_sign.
Qed.

Lemma parse_args_IndexError (command : str) (raw : list str) :
  raw <> [] ->
  (forall v, ShuffleState v <> Throw IndexError) ->
  (forall v, RepeatState v <> Throw IndexError) ->
  (forall v, InputAction v <> Throw IndexError) ->
  (forall v, TouchAction v <> Throw IndexError) ->
  (forall v, float v <> Throw IndexError) ->
  parse_args command raw = Throw IndexError <->
  command = str_of_string "action" /\ length raw < 3.
Proof.
  intros Hraw Hshuffle Hrepeat Hinput Htouch Hfloat.
  destruct raw as [|a0 raw]; [done|]. unfold _parse_args. cbn [fmap list_fmap].
  change (getitem (_typeparse py_int a0 :: (_typeparse py_int <$> raw)) 0)
    with (Return (_typeparse py_int a0)).
  assert (forall f : pyval -> result V,
            (forall v, f v <> Throw IndexError) ->
            match f (_typeparse py_int a0) with
            | Return v => Return [v]
            | Throw e => Throw e
            end <> Throw IndexError) as Hconstruct.
  { intros f Hf. specialize (Hf (_typeparse py_int a0)).
    destruct (f _) as [v|e]; [done|]. congruence. }
  repeat case_decide; subst.
  - split; [by intros ?%Hconstruct|intros [Habs _]; vm_compute in Habs; discriminate Habs].
  - split; [by intros ?%Hconstruct|intros [Habs _]; vm_compute in Habs; discriminate Habs].
  - split; [by intros ?%Hconstruct|]. intros [-> _]. exfalso.
    match goal with H : _ ∈ _ |- _ => apply list_elem_of_In in H; vm_compute in H end.
    intuition discriminate.
  - split; [by intros ?%Hconstruct|intros [Habs _]; vm_compute in Habs; discriminate Habs].
  - destruct raw as [|a1 [|a2 raw]]; cbn [fmap list_fmap].
    + split; [intros _; split; [done|simpl; lia]|done].
    + split; [intros _; split; [done|simpl; lia]|done].
    + change (getitem (_typeparse py_int a0 :: _typeparse py_int a1
                       :: _typeparse py_int a2 :: (_typeparse py_int <$> raw)) 1)
        with (Return (_typeparse py_int a1)).
      change (getitem (_typeparse py_int a0 :: _typeparse py_int a1
                       :: _typeparse py_int a2 :: (_typeparse py_int <$> raw)) 2)
        with (Return (_typeparse py_int a2)).
      pose proof (Htouch (_typeparse py_int a2)) as Ht.
      cbv beta iota. destruct (TouchAction _) as [v|e].
      * split; [done|]. intros [_ Hlen]. simpl in Hlen. lia.
      * split; [congruence|]. intros [_ Hlen]. simpl in Hlen. lia.
  - split; [done|]. by intros [? _].
Qed.

(** X14: when the enumerations and [float] do not raise [IndexError]
    themselves, [_extract_command_with_args] raises [IndexError] exactly for
    the command "action" followed by an equal sign and fewer than three
    arguments, that is fewer than two commas. *)
Theorem extract_command_IndexError (cmd : str) :
  (forall v, ShuffleState v <> Throw IndexError) ->
  (forall v, RepeatState v <> Throw IndexError) ->
  (forall v, InputAction v <> Throw IndexError) ->
  (forall v, TouchAction v <> Throw IndexError) ->
  (forall v, float v <> Throw IndexError) ->
  extract cmd = Throw IndexError <->
  exists rest,
    cmd = str_of_string "action=" ++ rest /\
    length (List.filter (fun x => bool_decide (x = 44%N)) rest) < 2.
Proof.
  intros Hshuffle Hrepeat Hinput Htouch Hfloat.
  pose proof (fun command raw Hraw =>
                parse_args_IndexError command raw Hraw
                  Hshuffle Hrepeat Hinput Htouch Hfloat) as Hparse.
  split.
  - intros Hrun. destruct (decide (61%N ∈ cmd)) as [Hin|Hnin].
    + destruct (find_present 61%N cmd) as (pre & post & -> & Hpre & _).
      { by rewrite find_absent; intros Hnin. }
      rewrite extract_with_equal_sign in Hrun by done.
      pose proof (Hparse pre (split 44%N post) (split_nonempty _ _)) as Hiff.
      destruct (parse_args pre (split 44%N post)) as [parsed|e] eqn:Hp; [done|].
      injection Hrun as ->. destruct (proj1 Hiff eq_refl) as [-> Hlen].
      exists post. split; [done|]. rewrite split_count in Hlen. lia.
    + unfold _extract_command_with_args in Hrun.
      apply find_absent in Hnin. by rewrite Hnin, decide_True in Hrun.
  - intros (rest & -> & Hcommas).
    change (str_of_string "action=" ++ rest)
      with (str_of_string "action" ++ 61%N :: rest).
    rewrite extract_with_equal_sign.
    + assert (parse_args (str_of_string "action") (split 44%N rest) = Throw IndexError)
        as ->; [|done].
      apply Hparse; [apply split_nonempty|]. split; [done|].
      rewrite split_count. lia.
    + intros Hin. apply list_elem_of_In in Hin. vm_compute in Hin.
      intuition discriminate.
Qed.

End ExtractCommandProperties.

Lemma extract_command_IndexError_witness :
  _extract_command_with_args (fun _ => None) id Return Return Return Return Return
    (str_of_string "action=tap,1")
  = Throw IndexError.
Proof.
  apply (extract_command_IndexError (fun _ => None) id Return Return Return Return Return);
    try (intros v; discriminate).
  exists (str_of_string "tap,1"). split; [reflexivity|]. vm_compute. lia.
Defined.

(** * [pyatv/scripts/atvremote.py]: [_scan_for_device] *)

Section ScanForDeviceProperties.
Context {Device Timeout ScanProtocol : Type}.
Variable device_name : Device -> str.
Implicit Types args : ScanArgs.
Implicit Types atvs : list Device.

Lemma elem_of_filter_name atvs (name : option str) (d : Device) :
  d ∈ List.filter (fun atv => bool_decide (Some (device_name atv) = name)) atvs <->
  d ∈ atvs /\ Some (device_name d) = name.
Proof.
  rewrite !list_elem_of_In, List.filter_In.
  by rewrite bool_decide_eq_true.
Qed.

(** X15: a device that [_scan_for_device] returns is one of the scanned
    devices and nothing was written.  With a name given it is the only
    scanned device of that name, and the scan was not restricted to an
    identifier; without a name it is the only scanned device, and the scan
    was restricted to [args.id]. *)
Theorem scan_for_device_selects
    (scan : ScanOptions (Timeout := Timeout) (ScanProtocol := ScanProtocol)
            -> result (list Device))
    args (timeout : Timeout) (protocol : ScanProtocol) out (d : Device) :
  _scan_for_device device_name scan args timeout protocol = (out, Return (Some d)) ->
  exists options atvs,
    scan options = Return atvs /\ d ∈ atvs /\ out = [] /\
    opt_timeout options = timeout /\ opt_protocol options = protocol /\
    if truthy (args_name args)
    then opt_identifier options = None /\
         Some (device_name d) = args_name args /\
         List.filter (fun atv => bool_decide (Some (device_name atv) = args_name args))
           atvs = [d]
    else opt_identifier options = Some (args_id args) /\ atvs = [d].
Proof.
  unfold _scan_for_device.
  match goal with |- context [scan ?o] => set (options := o) end.
  destruct (scan options) as [atvs|e] eqn:Hscan; [|done].
  destruct atvs as [|d0 atvs]; [done|].
  set (all := d0 :: atvs) in *.
  destruct (truthy (args_name args)) eqn:Hname.
  - pose proof (elem_of_filter_name all (args_name args)) as Hfilter.
    destruct (List.filter _ all) as [|d1 [|d2 devices]] eqn:Hdev.
    + by rewrite decide_False by (simpl; lia).
    + rewrite decide_False by (simpl; lia). intros [= <- <-].
      exists options, all. subst options. cbn [opt_timeout opt_protocol opt_identifier].
      assert (d1 ∈ [d1]) as [Hin Hd1]%Hfilter by left.
      done.
    + by rewrite decide_True by (simpl; lia).
  - case_decide as Hmany; [done|].
    destruct atvs as [|d2 atvs]; [|simpl in Hmany; lia].
    intros [= <- <-]. exists options, all. subst options all.
    cbn [opt_timeout opt_protocol opt_identifier].
    repeat split; try done. left.
Qed.

(** X16: [_scan_for_device] raises [IndexError] exactly when a name is given,
    the scan finds devices and none of them has that name. *)
Theorem scan_for_device_IndexError
    (scan : ScanOptions (Timeout := Timeout) (ScanProtocol := ScanProtocol)
            -> result (list Device))
    args (timeout : Timeout) (protocol : ScanProtocol) atvs :
  scan {| opt_timeout := timeout;
          opt_protocol := protocol;
          opt_identifier := if truthy (args_name args) then None
                            else Some (args_id args);
          opt_hosts := if truthy (args_scan_hosts args) then args_scan_hosts args
                       else None |} = Return atvs ->
  (_scan_for_device device_name scan args timeout protocol).2 = Throw IndexError <->
  truthy (args_name args) = true /\ atvs <> [] /\
  forall d, d ∈ atvs -> Some (device_name d) <> args_name args.
Proof.
  intros Hscan. unfold _scan_for_device. rewrite Hscan.
  destruct atvs as [|d0 atvs].
  - simpl. split; [done|]. by intros (_ & ? & _).
  - set (all := d0 :: atvs) in *.
    destruct (truthy (args_name args)) eqn:Hname.
    + pose proof (elem_of_filter_name all (args_name args)) as Hfilter.
      destruct (List.filter _ all) as [|d1 [|d2 devices]] eqn:Hdev.
      * simpl. split; [|done]. intros _. split; [done|]. split; [done|].
        intros d Hd Heq. assert (d ∈ []) as Habs by by apply Hfilter.
        by apply elem_of_nil in Habs.
      * simpl. split; [done|]. intros (_ & _ & Hnone). exfalso.
        assert (d1 ∈ [d1]) as [Hin Heq]%Hfilter by left. by eapply Hnone.
      * rewrite decide_True by (simpl; lia). simpl.
        split; [done|]. intros (_ & _ & Hnone). exfalso.
        assert (d1 ∈ d1 :: d2 :: devices) as [Hin Heq]%Hfilter by left.
        by eapply Hnone.
    + split; [|by intros [? _]].
      case_decide; [done|]. by subst all.
Qed.

End ScanForDeviceProperties.

Lemma scan_for_device_selects_witness :
  let scan := fun (_ : ScanOptions (Timeout := nat) (ScanProtocol := unit)) =>
                Return [str_of_string "Kitchen"; str_of_string "Bedroom"] in
  let args := {| args_name := Some (str_of_string "Bedroom"); args_id := None;
                 args_scan_hosts := None |} in
  exists options atvs,
    scan options = Return atvs /\ str_of_string "Bedroom" ∈ atvs /\
    opt_identifier options = None.
Proof.
  intros scan args.
  destruct (scan_for_device_selects id scan args 3 tt [] (str_of_string "Bedroom")
              eq_refl) as (options & atvs & Hscan & Hin & _ & _ & _ & Hname).
  exists options, atvs. split; [exact Hscan|]. split; [exact Hin|].
  exact (proj1 Hname).
Defined.

Lemma scan_for_device_IndexError_witness :
  let scan := fun (_ : ScanOptions (Timeout := nat) (ScanProtocol := unit)) =>
                Return [str_of_string "Kitchen"; str_of_string "Bedroom"] in
  let args := {| args_name := Some (str_of_string "Office"); args_id := None;
                 args_scan_hosts := None |} in
  (_scan_for_device id scan args 3 tt).2 = Throw IndexError.
Proof.
  intros scan args.
  apply (scan_for_device_IndexError id scan args 3 tt
           [str_of_string "Kitchen"; str_of_string "Bedroom"] eq_refl).
  split; [reflexivity|]. split; [discriminate|].
  intros d Hd. apply list_elem_of_In in Hd. simpl in Hd.
  destruct Hd as [<-|[<-|[]]]; vm_compute; discriminate.
Defined.

(** * [pyatv/support/__init__.py]: [shift_hex_identifier] *)

Lemma slice_from_nonneg {A} (l : list A) (k : Z) :
  (0 <= k)%Z -> slice l (Some k) None = drop (Z.to_nat k) l.
Proof.
  intros Hk. unfold slice. cbn [default].
  rewrite (clip_nonneg _ k), (clip_nonneg _ (Z.of_nat (length l))) by lia.
  rewrite (Z.min_l (Z.of_nat (length l))) by lia.
  destruct (decide (Z.of_nat (length l) <= k)%Z) as [Hle|Hgt].
  - rewrite Z.min_r by lia. rewrite Nat2Z.id, drop_all.
    rewrite drop_ge by lia. by rewrite take_nil.
  - rewrite Z.min_l by lia. apply take_ge. rewrite length_drop. lia.
Qed.

Lemma hex_value_hex_digit (d : Z) :
  (0 <= d < 16)%Z ->
  hex_value (hex_digit d) = Some d /\
  hex_value (if decide (97 <= hex_digit d <= 102)%N then (hex_digit d - 32)%N
             else hex_digit d) = Some d.
Proof.
  intros Hd.
  assert (d = 0 \/ d = 1 \/ d = 2 \/ d = 3 \/ d = 4 \/ d = 5 \/ d = 6 \/ d = 7 \/
          d = 8 \/ d = 9 \/ d = 10 \/ d = 11 \/ d = 12 \/ d = 13 \/ d = 14 \/
          d = 15)%Z as Hcases by lia.
  repeat (destruct Hcases as [->|Hcases]; [by vm_compute|]).
  subst d. by vm_compute.
Qed.

Lemma hex_pair_value_format (m : Z) :
  (0 <= m < 256)%Z ->
  hex_pair_value (format_02x m) = Some m /\
  hex_pair_value (upper_hex (format_02x m)) = Some m.
Proof.
  intros Hm.
  assert (0 <= m / 16 < 16)%Z as Hhi by (split; [apply Z.div_pos|apply Z.div_lt_upper_bound]; lia).
  assert (0 <= m mod 16 < 16)%Z as Hlo by (apply Z.mod_pos_bound; lia).
  destruct (hex_value_hex_digit _ Hhi) as [Hhi1 Hhi2].
  destruct (hex_value_hex_digit _ Hlo) as [Hlo1 Hlo2].
  assert (16 * (m / 16) + m mod 16 = m)%Z as Hsum by (symmetry; apply Z.div_mod; lia).
  unfold format_02x, upper_hex, hex_pair_value. cbn [fmap list_fmap].
  rewrite Hhi1, Hlo1, Hhi2, Hlo2. by rewrite Hsum.
Qed.

(** X11: an identifier shorter than two characters fails the assertion, and a
    [ValueError] of [int] is passed on.  Otherwise the result has the length
    of the identifier and the same characters after the first two; its first
    two characters are hexadecimal digits of value [(n + 1) % 256], where [n]
    is what [int] read, so for an identifier that starts with two
    hexadecimal digits of value [n] the result differs from the identifier. *)
Theorem shift_hex_identifier_shifts
    (int16 : str -> option Z) (isupper : str -> bool) (identifier : str) :
  (length identifier < 2 ->
   shift_hex_identifier int16 isupper identifier = Throw AssertionError) /\
  (2 <= length identifier -> int16 (take 2 identifier) = None ->
   shift_hex_identifier int16 isupper identifier = Throw (Raised ValueError)) /\
  (forall n,
     2 <= length identifier -> int16 (take 2 identifier) = Some n ->
     exists shifted,
       shift_hex_identifier int16 isupper identifier = Return shifted /\
       length shifted = length identifier /\
       drop 2 shifted = drop 2 identifier /\
       hex_pair_value (take 2 shifted) = Some ((n + 1) mod 256)%Z /\
       (hex_pair_value (take 2 identifier) = Some n -> (0 <= n < 256)%Z ->
        shifted <> identifier)).
Proof.
  unfold shift_hex_identifier. split; [|split].
  - intros Hshort. by rewrite decide_False by lia.
  - intros Hlong Hint. rewrite decide_True by done.
    rewrite slice_to_nonneg by lia. change (Z.to_nat 2) with 2. by rewrite Hint.
  - intros n Hlong Hint. rewrite decide_True by done.
    rewrite slice_to_nonneg, slice_from_nonneg by lia. change (Z.to_nat 2) with 2.
    rewrite Hint.
    assert (0 <= (n + 1) mod 256 < 256)%Z as Hrange by (apply Z.mod_pos_bound; lia).
    destruct (hex_pair_value_format _ Hrange) as [Hlower Hupper].
    set (prefix := if isupper identifier then upper_hex (format_02x ((n + 1) mod 256))
                   else format_02x ((n + 1) mod 256)).
    assert (length prefix = 2) as Hlen by (subst prefix; by destruct (isupper _)).
    assert (hex_pair_value prefix = Some ((n + 1) mod 256)%Z) as Hvalue
      by (subst prefix; by destruct (isupper _)).
    assert (take 2 (prefix ++ drop 2 identifier) = prefix) as Htake
      by (rewrite <- Hlen; apply take_app_length).
    exists (prefix ++ drop 2 identifier).
    split; [done|]. split; [rewrite length_app, length_drop; lia|].
    split; [by rewrite <- Hlen, drop_app_length|].
    split; [by rewrite Htake|].
    intros Hid Hn Heq. rewrite Heq in Htake. rewrite Htake, Hvalue in Hid.
    injection Hid as Hid.
    destruct (decide (n = 255%Z)) as [->|Hne]; [by vm_compute in Hid|].
    rewrite Z.mod_small in Hid by lia. lia.
Qed.

Example shift_hex_identifier_wraps :
  shift_hex_identifier (fun s => hex_pair_value s) (fun _ => true)
    (str_of_string "FF:AA:BB")
  = Return (str_of_string "00:AA:BB").
Proof. reflexivity. Qed.

(** * [pyatv/scripts/atvremote.py]: the properties of [_manual_device] *)

Lemma find_first (c : char) (pre post : str) :
  c ∉ pre -> find c (pre ++ c :: post) = Z.of_nat (length pre).
Proof.
  induction pre as [|x pre IH]; intros Hpre; simpl.
  - by rewrite decide_True.
  - apply not_elem_of_cons in Hpre as [Hx Hpre].
    rewrite decide_False by done. rewrite IH by done.
    rewrite decide_False by lia. lia.
Qed.

Lemma split_once_found (sep : char) (key value : str) :
  sep ∉ key -> split_once sep (key ++ sep :: value) = [key; value].
Proof.
  intros Hkey. unfold split_once. rewrite find_first by done.
  rewrite decide_False by lia.
  f_equal; [exact (slice_before key value sep)|].
  f_equal. apply slice_after.
Qed.

Lemma split_once_absent (sep : char) (piece : str) :
  sep ∉ piece -> split_once sep piece = [piece].
Proof.
  intros Hnin%find_absent. unfold split_once. by rewrite Hnin, decide_True.
Qed.

Lemma split_once_present (sep : char) (piece : str) :
  sep ∈ piece -> exists key value, split_once sep piece = [key; value].
Proof.
  intros Hin. destruct (find_present sep piece) as (pre & post & -> & Hpre & _).
  { by rewrite find_absent; intros Hnin. }
  exists pre, post. by apply split_once_found.
Qed.

Lemma split_without_sep (sep : char) (piece : str) :
  sep ∉ piece -> split sep piece = [piece].
Proof.
  induction piece as [|x piece IH]; intros Hnin; [done|].
  apply not_elem_of_cons in Hnin as [Hx Hnin]. cbn [split].
  rewrite decide_False by done. by rewrite IH.
Qed.

Lemma split_app_sep (sep : char) (piece rest : str) :
  sep ∉ piece -> split sep (piece ++ sep :: rest) = piece :: split sep rest.
Proof.
  induction piece as [|x piece IH]; intros Hnin.
  - simpl. by rewrite decide_True.
  - apply not_elem_of_cons in Hnin as [Hx Hnin]. rewrite <- app_comm_cons.
    cbn [split]. rewrite decide_False by done. by rewrite IH.
Qed.

Lemma split_join (sep : char) (pieces : list str) :
  pieces <> [] -> Forall (fun piece => sep ∉ piece) pieces ->
  split sep (join sep pieces) = pieces.
Proof.
  induction pieces as [|piece pieces IH]; [done|]. intros _ Hall.
  apply Forall_cons in Hall as [Hpiece Hall].
  destruct pieces as [|piece' pieces].
  - simpl. by apply split_without_sep.
  - change (join sep (piece :: piece' :: pieces))
      with (piece ++ sep :: join sep (piece' :: pieces)).
    rewrite split_app_sep by done. by rewrite IH.
Qed.

Lemma dict_of_items_split_once (pieces : list str) (d : gmap (list N) (list N)) e :
  dict_of_items (split_once 61%N <$> pieces) d = Throw e <->
  e = Raised ValueError /\ exists piece, piece ∈ pieces /\ 61%N ∉ piece.
Proof.
  revert d. induction pieces as [|piece pieces IH]; intros d.
  - simpl. split; [done|]. by intros [_ (? & ?%elem_of_nil & _)].
  - rewrite fmap_cons. destruct (decide (61%N ∈ piece)) as [Hin|Hnin].
    + destruct (split_once_present _ _ Hin) as (key & value & ->).
      cbn [dict_of_items]. rewrite IH. split.
      * intros [-> (p & Hp & Hnin)]. split; [done|]. exists p. split; [by right|done].
      * intros [-> (p & [->|Hp]%elem_of_cons & Hnin)]; [done|].
        split; [done|]. by exists p.
    + rewrite split_once_absent by done. cbn [dict_of_items]. split.
      * intros [= <-]. split; [done|]. exists piece. split; [left|done].
      * by intros [-> _].
Qed.

Lemma dict_of_items_pairs (pairs : list (list N * list N)) (d : gmap (list N) (list N)) :
  dict_of_items ((fun kv => [kv.1; kv.2]) <$> pairs) d
  = Return (foldl (fun d kv => <[kv.1 := kv.2]> d) d pairs).
Proof.
  revert d. induction pairs as [|[key value] pairs IH]; intros d; [done|].
  rewrite fmap_cons. cbn [dict_of_items fst snd foldl]. apply IH.
Qed.

Lemma foldl_insert_list_to_map (pairs : list (list N * list N)) :
  foldl (fun d kv => <[kv.1 := kv.2]> d) (∅ : gmap (list N) (list N)) pairs
  = list_to_map (reverse pairs).
Proof.
  induction pairs as [|[key value] pairs IH] using rev_ind; [done|].
  rewrite foldl_snoc, reverse_snoc, IH. done.
Qed.

(** X17: the properties of [_manual_device].  For a non-empty argument the
    only exception is [ValueError], raised exactly when one of the pieces
    between occurrences of the first character has no equal sign.  The
    encoding reads back: for name/value pairs whose names contain neither
    the separator nor an equal sign and whose values do not contain the
    separator, the separator followed by the pairs written as [name=value]
    and joined by the separator gives the dictionary of the pairs, a later
    pair replacing an earlier one of the same name. *)
Theorem manual_device_properties_parse (split_char : char) :
  (forall rest e,
     _manual_device_properties (split_char :: rest) = Throw e <->
     e = Raised ValueError /\
     exists piece, piece ∈ split split_char rest /\ 61%N ∉ piece) /\
  (forall pairs : list (list N * list N),
     split_char <> 61%N -> pairs <> [] ->
     Forall (fun kv => (split_char ∉ kv.1) /\ (61%N ∉ kv.1) /\ (split_char ∉ kv.2))
       pairs ->
     _manual_device_properties
       (split_char :: join split_char ((fun kv => kv.1 ++ 61%N :: kv.2) <$> pairs))
     = Return (list_to_map (reverse pairs))).
Proof.
  split.
  - intros rest e. apply dict_of_items_split_once.
  - intros pairs Hsep Hne Hall. unfold _manual_device_properties.
    rewrite split_join.
    + rewrite <- list_fmap_compose.
      rewrite (Forall_fmap_ext_1 (split_once 61%N ∘ (fun kv => kv.1 ++ 61%N :: kv.2))
                 (fun kv => [kv.1; kv.2]) pairs).
      * by rewrite dict_of_items_pairs, foldl_insert_list_to_map.
      * eapply Forall_impl; [done|]. intros [key value] (_ & Hkey & _). simpl.
        by apply split_once_found.
    + by destruct pairs.
    + apply Forall_fmap. eapply Forall_impl; [done|].
      intros [key value] (Hk & _ & Hv). simpl.
      intros [?|[?|?]%elem_of_cons]%elem_of_app; done.
Qed.

Example manual_device_properties_example :
  _manual_device_properties (str_of_string ":name=test:type=a=b")
  = Return {[str_of_string "name" := str_of_string "test";
             str_of_string "type" := str_of_string "a=b"]} /\
  _manual_device_properties (str_of_string ":") = Throw (Raised ValueError) /\
  _manual_device_properties (str_of_string ":name=test:")
  = Throw (Raised ValueError).
Proof. repeat split; vm_compute; reflexivity. Qed.
